(** * GraphSelfAttentionLayer: a model of [lib/model/faster_rcnn/graph_att_layer.py]

    The layer is embedded over dense row-major tensors whose elements are
    real numbers.  Every tensor operation the source calls is a fallible
    function: it checks the shapes the way the framework does and either
    returns a tensor or raises.  [R] stands for the idealised value of a
    floating-point scalar; rounding is modelled where it decides the
    result, at the sentinel of the masking stage ([forward_trace_rnd]). *)

From Stdlib Require Import List Arith ZArith Lia Bool Reals Lra.
Import ListNotations.

Open Scope nat_scope.

(** ** Exceptions and the error monad *)

Inductive exn : Type :=
| IndexError          (* a dimension or tuple index out of range *)
| RuntimeError        (* a shape rejected by a tensor operation *)
| AttributeError      (* attribute access on [None] or a missing member *)
| ValueError          (* a constructor argument rejected *)
| ZeroDivisionError.

Inductive result (A : Type) : Type :=
| Ok (a : A)
| Raise (e : exn).

Arguments Ok {A} a.
Arguments Raise {A} e.

Definition bind {A B : Type} (m : result A) (k : A -> result B) : result B :=
  match m with
  | Ok a => k a
  | Raise e => Raise e
  end.

Notation "x <- m ;; k" := (bind m (fun x => k))
  (at level 61, m at next level, right associativity).

(** ** Dense tensors *)

Record Tensor : Type := mkTensor { shape : list nat; data : list R }.

Definition numel (sh : list nat) : nat := fold_right Nat.mul 1 sh.

(** Row-major offset of a multi-index. *)
Fixpoint ravel (sh idx : list nat) : nat :=
  match sh, idx with
  | _ :: sh', i :: idx' => i * numel sh' + ravel sh' idx'
  | _, _ => 0
  end.

Fixpoint in_range (sh idx : list nat) : Prop :=
  match sh, idx with
  | [], [] => True
  | n :: sh', i :: idx' => i < n /\ in_range sh' idx'
  | _, _ => False
  end.

(** All multi-indices of a shape, in storage order. *)
Fixpoint indices (sh : list nat) : list (list nat) :=
  match sh with
  | [] => [[]]
  | n :: sh' => flat_map (fun i => map (cons i) (indices sh')) (seq 0 n)
  end.

Definition tget (t : Tensor) (idx : list nat) : R :=
  nth (ravel (shape t) idx) (data t) 0%R.


Definition tabulate (sh : list nat) (f : list nat -> R) : Tensor :=
  mkTensor sh (map f (indices sh)).

Definition well_formed (t : Tensor) : Prop :=
  length (data t) = numel (shape t).

(** Finite sums [f 0 + ... + f (n-1)]. *)
Definition sum_n (n : nat) (f : nat -> R) : R :=
  fold_right Rplus 0%R (map f (seq 0 n)).

(** ** Tensor operations used by the layer *)

(** [t.size(k)] and [t.shape[k]]. *)
Definition size (t : Tensor) (k : nat) : result nat :=
  match nth_error (shape t) k with
  | Some n => Ok n
  | None => Raise IndexError
  end.

(** Broadcasting aligns shapes from the last axis; an axis of extent 1
    stretches to the extent of the other operand. *)
Definition bdim (a b : nat) : option nat :=
  if a =? b then Some a
  else if a =? 1 then Some b
  else if b =? 1 then Some a
  else None.

Fixpoint bshape_rev (r1 r2 : list nat) : option (list nat) :=
  match r1, r2 with
  | [], r => Some r
  | r, [] => Some r
  | a :: r1', b :: r2' =>
      match bdim a b, bshape_rev r1' r2' with
      | Some d, Some r => Some (d :: r)
      | _, _ => None
      end
  end.

Definition broadcast_shapes (s1 s2 : list nat) : option (list nat) :=
  option_map (@rev nat) (bshape_rev (rev s1) (rev s2)).

(** The index at which an operand of shape [sh] is read when the
    broadcast result is read at [idx]. *)
Definition bidx (sh idx : list nat) : list nat :=
  map (fun p => if fst p =? 1 then 0 else snd p)
      (combine sh (skipn (length idx - length sh) idx)).

Definition tmap (g : R -> R) (t : Tensor) : Tensor :=
  tabulate (shape t) (fun idx => g (tget t idx)).

Definition broadcast2 (g : R -> R -> R) (a b : Tensor) : result Tensor :=
  match broadcast_shapes (shape a) (shape b) with
  | Some sh =>
      Ok (tabulate sh (fun idx =>
            g (tget a (bidx (shape a) idx)) (tget b (bidx (shape b) idx))))
  | None => Raise RuntimeError
  end.

(** [a + b]. *)
Definition tadd : Tensor -> Tensor -> result Tensor := broadcast2 Rplus.

(** [torch.max(a, b)], the elementwise maximum. *)
Definition tmax : Tensor -> Tensor -> result Tensor := broadcast2 Rmax.

Definition shape_eqb (s1 s2 : list nat) : bool :=
  if list_eq_dec Nat.eq_dec s1 s2 then true else false.

(** [a += b]: the broadcast result must have the shape of [a]. *)
Definition iadd (a b : Tensor) : result Tensor :=
  match broadcast_shapes (shape a) (shape b) with
  | Some sh =>
      if shape_eqb sh (shape a)
      then Ok (tabulate sh (fun idx =>
                 (tget a (bidx (shape a) idx) + tget b (bidx (shape b) idx))%R))
      else Raise RuntimeError
  | None => Raise RuntimeError
  end.

(** [torch.where(c > 0, a, b)]. *)
Definition where_pos (c a b : Tensor) : result Tensor :=
  match broadcast_shapes (shape c) (shape a) with
  | Some s1 =>
      match broadcast_shapes s1 (shape b) with
      | Some sh =>
          Ok (tabulate sh (fun idx =>
                if Rlt_dec 0 (tget c (bidx (shape c) idx))
                then tget a (bidx (shape a) idx)
                else tget b (bidx (shape b) idx)))
      | None => Raise RuntimeError
      end
  | None => Raise RuntimeError
  end.

(** [c * t] for a scalar [c]. *)
Definition scale (c : R) (t : Tensor) : Tensor := tmap (Rmult c) t.

Definition ones_like (t : Tensor) : Tensor := tmap (fun _ => 1%R) t.

(** [nn.functional.relu]. *)
Definition relu (t : Tensor) : Tensor := tmap (fun v => Rmax v 0) t.

(** [torch.log]. *)
Definition tlog (t : Tensor) : Tensor := tmap ln t.

(** [t.float()]: a change of element type, the identity on values. *)
Definition float (t : Tensor) : Tensor := t.

(** [t[:, :n, :]] for [0 <= n]. *)
Definition slice_dim1 (t : Tensor) (n : nat) : result Tensor :=
  match shape t with
  | d0 :: d1 :: d2 :: rest =>
      Ok (tabulate (d0 :: Nat.min n d1 :: d2 :: rest) (tget t))
  | _ => Raise IndexError
  end.

(** [t.view(spec)]; [None] stands for the size [-1] that is inferred. *)
Definition known (spec : list (option nat)) : nat :=
  fold_right (fun d acc => match d with Some n => n * acc | None => acc end) 1 spec.

Definition inferred (spec : list (option nat)) : nat :=
  length (filter (fun d => match d with None => true | Some _ => false end) spec).

Definition infer_size (spec : list (option nat)) (n : nat) : result (list nat) :=
  let newsize := known spec in
  match inferred spec with
  | 0 =>
      if n =? newsize
      then Ok (map (fun d => match d with Some k => k | None => 0 end) spec)
      else Raise RuntimeError
  | 1 =>
      if (0 <? newsize) && (n mod newsize =? 0)
      then Ok (map (fun d => match d with Some k => k | None => n / newsize end) spec)
      else Raise RuntimeError
  | _ => Raise RuntimeError
  end.

Definition view (t : Tensor) (spec : list (option nat)) : result Tensor :=
  sh <- infer_size spec (numel (shape t)) ;;
  Ok (mkTensor sh (data t)).

(** [torch.transpose(t, a, b)]. *)
Definition swap {A : Type} (a b : nat) (l : list A) (d : A) : list A :=
  map (fun k => nth (if k =? a then b else if k =? b then a else k) l d)
      (seq 0 (length l)).

Definition transpose (t : Tensor) (a b : nat) : result Tensor :=
  if (a <? length (shape t)) && (b <? length (shape t))
  then Ok (tabulate (swap a b (shape t) 0) (fun idx => tget t (swap a b idx 0)))
  else Raise IndexError.

(** [t.unsqueeze(k)]. *)
Definition unsqueeze (t : Tensor) (k : nat) : result Tensor :=
  if k <=? length (shape t)
  then Ok (mkTensor (firstn k (shape t) ++ 1 :: skipn k (shape t)) (data t))
  else Raise IndexError.

(** [t.expand(spec)] with as many sizes as [t] has axes; [None] is [-1]. *)
Fixpoint expand_shape (sh : list nat) (spec : list (option nat)) : option (list nat) :=
  match sh, spec with
  | [], [] => Some []
  | d :: sh', None :: spec' => option_map (cons d) (expand_shape sh' spec')
  | d :: sh', Some n :: spec' =>
      if (d =? n) || (d =? 1)
      then option_map (cons n) (expand_shape sh' spec')
      else None
  | _, _ => None
  end.

Definition expand (t : Tensor) (spec : list (option nat)) : result Tensor :=
  match expand_shape (shape t) spec with
  | Some sh => Ok (tabulate sh (fun idx => tget t (bidx (shape t) idx)))
  | None => Raise RuntimeError
  end.

(** [torch.matmul] on operands with at least two axes: a matrix product
    over the last two axes, batched over the broadcast leading axes.
    The layer never passes a vector. *)
Definition matmul (a b : Tensor) : result Tensor :=
  match rev (shape a), rev (shape b) with
  | k :: m :: ba, n :: k' :: bb =>
      if k =? k'
      then match bshape_rev ba bb with
           | Some bo =>
               let batch := rev bo in
               let r := length batch in
               Ok (tabulate (batch ++ [m; n]) (fun idx =>
                     let bi := firstn r idx in
                     let i := nth r idx 0 in
                     let j := nth (S r) idx 0 in
                     sum_n k (fun c =>
                       (tget a (bidx (rev ba) bi ++ [i; c])
                        * tget b (bidx (rev bb) bi ++ [c; j]))%R)))
           | None => Raise RuntimeError
           end
      else Raise RuntimeError
  | _, _ => Raise RuntimeError
  end.

(** [nn.functional.softmax(t, k)]. *)
Fixpoint set_nth (k v : nat) (idx : list nat) : list nat :=
  match idx, k with
  | [], _ => []
  | _ :: idx', 0 => v :: idx'
  | i :: idx', S k' => i :: set_nth k' v idx'
  end.

Definition softmax (t : Tensor) (k : nat) : result Tensor :=
  match nth_error (shape t) k with
  | Some n =>
      Ok (tabulate (shape t) (fun idx =>
            (exp (tget t idx)
             / sum_n n (fun j => exp (tget t (set_nth k j idx))))%R))
  | None => Raise IndexError
  end.

(** ** The sub-modules of the layer *)

(** Modelled from the spec: [FCNet] (model/faster_rcnn/fc.py is not part of
    the sources) is "a configurable feed-forward transform" along the last
    axis.  With the activation [None] that the layer passes, and dropout
    inactive, each input row of width [in_features] yields a row of width
    [out_features]; [fc_row r k] is component [k] of the image of row [r]. *)
Record FCNet : Type := mkFCNet {
  in_features : nat;
  out_features : nat;
  fc_row : list R -> nat -> R
}.

Definition row (t : Tensor) (pre : list nat) (d : nat) : list R :=
  map (fun c => tget t (pre ++ [c])) (seq 0 d).

Definition apply_fc (m : FCNet) (t : Tensor) : result Tensor :=
  match rev (shape t) with
  | d :: pre =>
      if d =? in_features m
      then Ok (tabulate (rev pre ++ [out_features m]) (fun idx =>
                 fc_row m (row t (removelast idx) d) (last idx 0)))
      else Raise RuntimeError
  | [] => Raise RuntimeError
  end.

(** [nn.Conv2d] with a (1, 1) kernel and [groups] groups; the weight is
    the effective one (weight normalisation only reparameterises it):
    [weight o c] multiplies channel [c] of the group of output channel [o]. *)
Record Conv2d : Type := mkConv2d {
  in_channels : nat;
  out_channels : nat;
  groups : nat;
  weight : nat -> nat -> R;
  bias : nat -> R
}.

Definition Conv2d_init (inc outc g : nat) (w : nat -> nat -> R) (b : nat -> R)
  : result Conv2d :=
  if g =? 0 then Raise ValueError
  else if negb (inc mod g =? 0) then Raise ValueError
  else if negb (outc mod g =? 0) then Raise ValueError
  else Ok (mkConv2d inc outc g w b).

Definition apply_conv (m : Conv2d) (t : Tensor) : result Tensor :=
  match shape t with
  | [s; c; h; w] =>
      if c =? in_channels m
      then Ok (tabulate [s; out_channels m; h; w] (fun idx =>
                 let o := nth 1 idx 0 in
                 let cg := in_channels m / groups m in
                 let og := out_channels m / groups m in
                 let src := fun ci =>
                   [nth 0 idx 0; (o / og) * cg + ci; nth 2 idx 0; nth 3 idx 0] in
                 (bias m o + sum_n cg (fun ci => weight m o ci * tget t (src ci)))%R))
      else Raise RuntimeError
  | _ => Raise RuntimeError
  end.

(** ** The layer *)

Definition item0 (p : nat * nat * nat) : nat := fst (fst p).
Definition item1 (p : nat * nat * nat) : nat := snd (fst p).
Definition item2 (p : nat * nat * nat) : nat := snd p.

Record GraphSelfAttentionLayer : Type := mkLayer {
  fc_dim : nat;
  feat_dim : nat;
  dim : nat * nat * nat;
  dim_group : nat * nat * nat;
  num_heads : nat;
  pos_emb_dim : Z;
  pair_pos_fc1 : option FCNet;      (* the attribute exists only if [pos_emb_dim > 0] *)
  query : FCNet;
  nongt_dim : nat;
  key : FCNet;
  linear_out_ : Conv2d
}.

(** The learned parameters, which [__init__] draws at random. *)
Record Params : Type := mkParams {
  query_fn : list R -> nat -> R;
  key_fn : list R -> nat -> R;
  pos_fn : list R -> nat -> R;
  out_weight : nat -> nat -> R;
  out_bias : nat -> R
}.

(** [GraphSelfAttentionLayer.__init__], lines 19-55.  The caller passes
    every size (the source defaults are [nongt_dim=20], [pos_emb_dim=-1],
    [num_heads=16]); [int(dim / num_heads)] raises on zero heads and
    [nn.Conv2d] rejects channel counts that its groups do not divide. *)
Definition init (feat_dim nongt_dim : nat) (pos_emb_dim : Z) (num_heads : nat)
    (theta : Params) : result GraphSelfAttentionLayer :=
  let fc_dim := num_heads in
  let dim := (feat_dim, feat_dim, feat_dim) in
  if num_heads =? 0 then Raise ZeroDivisionError else
  let dim_group := (item0 dim / num_heads, item1 dim / num_heads, item2 dim / num_heads) in
  let pair_pos_fc1 :=
    if (0 <? pos_emb_dim)%Z
    then Some (mkFCNet (Z.to_nat pos_emb_dim) fc_dim (pos_fn theta))
    else None in
  let query := mkFCNet feat_dim (item0 dim) (query_fn theta) in
  let key := mkFCNet feat_dim (item1 dim) (key_fn theta) in
  linear_out_ <- Conv2d_init (fc_dim * feat_dim) (item2 dim) fc_dim
                   (out_weight theta) (out_bias theta) ;;
  Ok (mkLayer fc_dim feat_dim dim dim_group num_heads pos_emb_dim pair_pos_fc1
              query nongt_dim key linear_out_).

(** The fill value of line 136 and the threshold of line 126. *)
Definition sentinel : R := (-9e15)%R.
Definition thresh_value : R := (1e-6)%R.

(** [t.shape[-1]]. *)

Definition size_last (t : Tensor) : result nat :=
  match rev (shape t) with
  | d :: _ => Ok d
  | [] => Raise IndexError
  end.

(** Lines 108-130: the geometric term, entered when a position embedding
    is given and [pos_emb_dim > 0]. *)
Definition add_position (L : GraphSelfAttentionLayer) (batch_size nongt_dim : nat)
    (weighted_aff position_embedding : Tensor) : result Tensor :=
  let position_embedding := float position_embedding in
  position_embedding_reshape <-
    view position_embedding [Some batch_size; None; Some (Z.to_nat (pos_emb_dim L))] ;;
  fc <- match pair_pos_fc1 L with
        | Some m => Ok m
        | None => Raise AttributeError
        end ;;
  position_feat_1 <- apply_fc fc position_embedding_reshape ;;
  let position_feat_1_relu := relu position_feat_1 in
  aff_weight <-
    view position_feat_1_relu [Some batch_size; None; Some nongt_dim; Some (fc_dim L)] ;;
  aff_weight <- transpose aff_weight 2 3 ;;
  let thresh := mkTensor [1] [thresh_value] in
  threshold_aff <- tmax aff_weight thresh ;;
  iadd weighted_aff (tlog threshold_aff).

(** Lines 133-149: masking by the adjacency matrix, then the label biases.
    Products and sums are exact here; [mask_and_bias_rnd] rounds them. *)
Definition mask_and_bias (weighted_aff adj_matrix : Tensor)
    (label_biases_att : option Tensor) : result Tensor :=
  weighted_aff_transposed <- transpose weighted_aff 2 3 ;;
  let zero_vec := scale sentinel (ones_like weighted_aff_transposed) in
  s0 <- size adj_matrix 0 ;;
  s1 <- size adj_matrix 1 ;;
  s2 <- size adj_matrix 2 ;;
  adj_matrix <- view adj_matrix [Some s0; Some s1; Some s2; Some 1] ;;
  heads <- size_last weighted_aff_transposed ;;
  adj_matrix_expand <- expand adj_matrix [None; None; None; Some heads] ;;
  weighted_aff_masked <- where_pos adj_matrix_expand weighted_aff_transposed zero_vec ;;
  biases <- match label_biases_att with
            | Some t => unsqueeze t 3
            | None => Raise AttributeError
            end ;;
  weighted_aff_masked <- tadd weighted_aff_masked biases ;;
  transpose weighted_aff_masked 2 3.

(** The values [forward] has computed when it reaches line 106. *)
Record Scores : Type := mkScores {
  sc_batch_size : nat;
  sc_num_rois : nat;
  sc_nongt_dim : nat;
  sc_v_data : Tensor;
  sc_aff_scale : Tensor
}.

(** Lines 68-106: the neighbour pool, the query and key projections and
    the scaled dot-product scores. *)
Definition content_scores (L : GraphSelfAttentionLayer) (roi_feat : Tensor)
  : result Scores :=
  batch_size <- size roi_feat 0 ;;
  num_rois <- size roi_feat 1 ;;
  let nongt_dim := if nongt_dim L <? num_rois then nongt_dim L else num_rois in
  nongt_roi_feat <- slice_dim1 roi_feat nongt_dim ;;
  q_data <- apply_fc (query L) roi_feat ;;
  q_data_batch <-
    view q_data [Some batch_size; Some num_rois; Some (num_heads L);
                 Some (item0 (dim_group L))] ;;
  q_data_batch <- transpose q_data_batch 1 2 ;;
  k_data <- apply_fc (key L) nongt_roi_feat ;;
  k_data_batch <-
    view k_data [Some batch_size; Some nongt_dim; Some (num_heads L);
                 Some (item1 (dim_group L))] ;;
  k_data_batch <- transpose k_data_batch 1 2 ;;
  let v_data := nongt_roi_feat in
  k_data_batch_t <- transpose k_data_batch 2 3 ;;
  aff <- matmul q_data_batch k_data_batch_t ;;
  factor <- (if item1 (dim_group L) =? 0 then Raise ZeroDivisionError
             else Ok (1 / sqrt (INR (item1 (dim_group L))))%R) ;;
  let aff_scale := scale factor aff in
  aff_scale <- transpose aff_scale 1 2 ;;
  Ok (mkScores batch_size num_rois nongt_dim v_data aff_scale).

(** The values computed from line 152 on. *)
Record Mixed : Type := mkMixed {
  mx_aff_softmax : Tensor;
  mx_output_t : Tensor;
  mx_output : Tensor
}.

(** Lines 152-166: softmax over the neighbours, the weighted sum of the
    value rows and the grouped output projection. *)
Definition aggregate (L : GraphSelfAttentionLayer) (batch_size num_rois nongt_dim : nat)
    (v_data weighted_aff : Tensor) : result Mixed :=
  aff_softmax <- softmax weighted_aff 3 ;;
  aff_softmax_reshape <- view aff_softmax [Some batch_size; None; Some nongt_dim] ;;
  output_t <- matmul aff_softmax_reshape v_data ;;
  output_t_view <- view output_t [None; Some (fc_dim L * feat_dim L); Some 1; Some 1] ;;
  linear_out <- apply_conv (linear_out_ L) output_t_view ;;
  output <- view linear_out [Some batch_size; Some num_rois; Some (item2 (dim L))] ;;
  Ok (mkMixed aff_softmax output_t output).

(** The named intermediate values of one call of [forward]. *)
Record Trace : Type := mkTrace {
  tr_nongt_dim : nat;
  tr_v_data : Tensor;
  tr_aff_scale : Tensor;         (* line 105, before the in-place addition *)
  tr_weighted_aff : Tensor;      (* the argument of the softmax *)
  tr_aff_softmax : Tensor;
  tr_output_t : Tensor;          (* line 159 *)
  tr_output : Tensor
}.

(** [GraphSelfAttentionLayer.forward], lines 57-167, stage by stage. *)
Definition forward_trace (L : GraphSelfAttentionLayer) (roi_feat : Tensor)
    (adj_matrix position_embedding label_biases_att : option Tensor) : result Trace :=
  sc <- content_scores L roi_feat ;;
  let weighted_aff := sc_aff_scale sc in
  weighted_aff <-
    match position_embedding with
    | Some pe =>
        if (0 <? pos_emb_dim L)%Z
        then add_position L (sc_batch_size sc) (sc_nongt_dim sc) weighted_aff pe
        else Ok weighted_aff
    | None => Ok weighted_aff
    end ;;
  weighted_aff <-
    match adj_matrix with
    | Some adj => mask_and_bias weighted_aff adj label_biases_att
    | None => Ok weighted_aff
    end ;;
  mx <- aggregate L (sc_batch_size sc) (sc_num_rois sc) (sc_nongt_dim sc)
          (sc_v_data sc) weighted_aff ;;
  Ok (mkTrace (sc_nongt_dim sc) (sc_v_data sc) (sc_aff_scale sc) weighted_aff
              (mx_aff_softmax mx) (mx_output_t mx) (mx_output mx)).

Definition forward (L : GraphSelfAttentionLayer) (roi_feat : Tensor)
    (adj_matrix position_embedding label_biases_att : option Tensor) : result Tensor :=
  tr <- forward_trace L roi_feat adj_matrix position_embedding label_biases_att ;;
  Ok (tr_output tr).

(** ** What one call of [forward] computes *)

(** The geometric term that lines 108-130 add to the score of head [h]
    for the pair (region [i], neighbour [j]) of image [b]; zero when the
    stage is skipped. *)
Definition position_term (L : GraphSelfAttentionLayer) (pe : option Tensor)
    (b i h j : nat) : R :=
  match pe, pair_pos_fc1 L with
  | Some p, Some m =>
      ln (Rmax (Rmax (fc_row m (row p [b; i; j] (in_features m)) h) 0) thresh_value)
  | _, _ => 0%R
  end.

(** The effect of lines 133-149 on a score [s] of the pair (region [i],
    neighbour [j]) of image [b]. *)
Definition masked (adj lb : option Tensor) (b i j : nat) (s : R) : R :=
  match adj, lb with
  | Some a, Some l =>
      ((if Rlt_dec 0 (tget a [b; i; j]) then s else sentinel) + tget l [b; i; j])%R
  | _, _ => s
  end.

(** The inputs [forward] is declared for: positive sizes, features of
    shape (B, N, F), and optional inputs of the shapes of the docstring
    (the label biases being present whenever the adjacency matrix is). *)
Definition valid_inputs (F n0 : nat) (P : Z) (B N : nat) (x : Tensor)
    (adj pe lb : option Tensor) : Prop :=
  let n := Nat.min n0 N in
  0 < B /\ 0 < N /\ 0 < n0 /\ 0 < F /\ shape x = [B; N; F] /\
  match adj with
  | Some a => shape a = [B; N; n] /\ exists l, lb = Some l /\ shape l = [B; N; n]
  | None => True
  end /\
  match pe with
  | Some p => (0 < P)%Z -> shape p = [B; N; n; Z.to_nat P]
  | None => True
  end.

(** The values of the intermediate tensors of a call, entry by entry. *)
Record trace_facts (L : GraphSelfAttentionLayer) (B N : nat) (x : Tensor)
    (adj pe lb : option Tensor) (tr : Trace) : Prop := mkFacts {
  tf_nongt : tr_nongt_dim tr = Nat.min (nongt_dim L) N;
  tf_v_shape : shape (tr_v_data tr) = [B; tr_nongt_dim tr; feat_dim L];
  tf_v : forall b j c, b < B -> j < tr_nongt_dim tr -> c < feat_dim L ->
      tget (tr_v_data tr) [b; j; c] = tget x [b; j; c];
  tf_scale_shape :
    shape (tr_aff_scale tr) = [B; N; num_heads L; tr_nongt_dim tr];
  tf_scale : forall b i h j,
      b < B -> i < N -> h < num_heads L -> j < tr_nongt_dim tr ->
      tget (tr_aff_scale tr) [b; i; h; j]
      = (1 / sqrt (INR (item1 (dim_group L)))
         * sum_n (item1 (dim_group L)) (fun c =>
             fc_row (query L) (row x [b; i] (feat_dim L))
               (h * item1 (dim_group L) + c)%nat
             * fc_row (key L) (row x [b; j] (feat_dim L))
                 (h * item1 (dim_group L) + c)%nat))%R;
  tf_w_shape :
    shape (tr_weighted_aff tr) = [B; N; num_heads L; tr_nongt_dim tr];
  tf_w : forall b i h j,
      b < B -> i < N -> h < num_heads L -> j < tr_nongt_dim tr ->
      tget (tr_weighted_aff tr) [b; i; h; j]
      = masked adj lb b i j
          (tget (tr_aff_scale tr) [b; i; h; j] + position_term L pe b i h j)%R;
  tf_softmax_shape :
    shape (tr_aff_softmax tr) = [B; N; num_heads L; tr_nongt_dim tr];
  tf_softmax : forall b i h j,
      b < B -> i < N -> h < num_heads L -> j < tr_nongt_dim tr ->
      tget (tr_aff_softmax tr) [b; i; h; j]
      = (exp (tget (tr_weighted_aff tr) [b; i; h; j])
         / sum_n (tr_nongt_dim tr) (fun z =>
             exp (tget (tr_weighted_aff tr) [b; i; h; z])))%R;
  tf_output_t_shape :
    shape (tr_output_t tr) = [B; N * num_heads L; feat_dim L];
  tf_output_t : forall b i h c,
      b < B -> i < N -> h < num_heads L -> c < feat_dim L ->
      tget (tr_output_t tr) [b; i * num_heads L + h; c]
      = sum_n (tr_nongt_dim tr) (fun j =>
          (tget (tr_aff_softmax tr) [b; i; h; j] * tget (tr_v_data tr) [b; j; c])%R);
  tf_output_shape : shape (tr_output tr) = [B; N; item2 (dim L)];
  tf_output_wf : well_formed (tr_output tr);
  tf_output : forall b i o, b < B -> i < N -> o < item2 (dim L) ->
      tget (tr_output tr) [b; i; o]
      = (bias (linear_out_ L) o
         + sum_n (feat_dim L) (fun c =>
             weight (linear_out_ L) o c
             * tget (tr_output_t tr)
                 [b; (i * num_heads L + o / (item2 (dim L) / num_heads L))%nat; c]))%R
}.


(** Two optional inputs are both absent, or both present and equal at
    every index selected by [Q]. *)
Definition same_entries (Q : list nat -> Prop) (o o' : option Tensor) : Prop :=
  match o, o' with
  | Some t, Some t' => forall idx, Q idx -> tget t' idx = tget t idx
  | None, None => True
  | _, _ => False
  end.

(** The entries of a rank-3 optional input that belong to query (b, i). *)
Definition query_entries (b i n : nat) (idx : list nat) : Prop :=
  exists j, j < n /\ idx = [b; i; j].

(** The entries of a position embedding that belong to query (b, i). *)
Definition query_rows (b i n : nat) (idx : list nat) : Prop :=
  exists j c, j < n /\ idx = [b; i; j; c].

(** ** Small concrete layers and inputs *)

Definition theta_unit : Params :=
  mkParams (fun _ _ => 0%R) (fun _ _ => 0%R) (fun r _ => nth 0 r 0%R)
           (fun _ _ => 1%R) (fun _ => 0%R).

(** [GraphSelfAttentionLayer(1, nongt_dim, pos_emb_dim, 1)] with those parameters. *)
Definition unit_layer (nongt_dim : nat) (pos_emb_dim : Z) : GraphSelfAttentionLayer :=
  mkLayer 1 1 (1, 1, 1) (1, 1, 1) 1 pos_emb_dim
    (if (0 <? pos_emb_dim)%Z
     then Some (mkFCNet (Z.to_nat pos_emb_dim) 1 (pos_fn theta_unit)) else None)
    (mkFCNet 1 1 (query_fn theta_unit)) nongt_dim
    (mkFCNet 1 1 (key_fn theta_unit))
    (mkConv2d 1 1 1 (out_weight theta_unit) (out_bias theta_unit)).

(** One image, two regions with the one-component features 1 and 3. *)
Definition two_regions : Tensor := mkTensor [1; 2; 1] [1; 3]%R.

(** The same image with the second region's feature replaced. *)
Definition two_regions_alt : Tensor := mkTensor [1; 2; 1] [1; 7]%R.

(** One image, five regions. *)
Definition five_regions : Tensor := mkTensor [1; 5; 1] [1; 2; 3; 4; 5]%R.

(** Region 0 is linked to neighbour 0 only; region 1 to both. *)
Definition adj_half : Tensor := mkTensor [1; 2; 2] [1; 0; 1; 1]%R.

(** No region is linked to any neighbour. *)
Definition adj_none : Tensor := mkTensor [1; 2; 2] [0; 0; 0; 0]%R.

Definition bias_zero : Tensor := mkTensor [1; 2; 2] [0; 0; 0; 0]%R.

(** A large bias on the pair (region 0, neighbour 1). *)
Definition bias_large : Tensor := mkTensor [1; 2; 2] [0; 9e15; 0; 0]%R.

(** A position embedding of width 1 for two regions and two neighbours. *)
Definition pos_two : Tensor := mkTensor [1; 2; 2; 1] [2; 0; -1; 5]%R.

(** Label biases with one column where two are declared. *)
Definition bias_narrow : Tensor := mkTensor [1; 2; 1] [0; 0]%R.

(** A tensor that is no position embedding at all. *)
Definition pos_flat : Tensor := mkTensor [3] [1; 2; 3]%R.

(** Two regions with features of width 2. *)
Definition two_wide : Tensor := mkTensor [1; 2; 2] [1; 2; 3; 4]%R.

(** A tensor with two axes only, and inputs without any region. *)
Definition flat_features : Tensor := mkTensor [2; 1] [1; 3]%R.
Definition no_regions : Tensor := mkTensor [1; 0; 1] [].

(** An adjacency matrix with three neighbour columns where two are declared. *)
Definition adj_wide : Tensor := mkTensor [1; 2; 3] [1; 1; 1; 1; 1; 1]%R.

(** Every region is linked to every neighbour. *)
Definition adj_full : Tensor := mkTensor [1; 2; 2] [1; 1; 1; 1]%R.

(** Label biases that are constant along each region's row. *)
Definition bias_rows : Tensor := mkTensor [1; 2; 2] [4; 4; -2; -2]%R.

(** The edges of [adj_half] with other weights, and a negative entry where
    [adj_half] has a zero. *)
Definition adj_scaled : Tensor := mkTensor [1; 2; 2] [7; -3; 0.5; 2]%R.
(** ** Rounding to a floating-point format *)

(** The integer nearest to [t], ties to the even one. *)
Definition rne (t : R) : Z :=
  let f := Int_part t in
  let r := (t - IZR f)%R in
  if Rlt_dec r (1 / 2) then f
  else if Rlt_dec (1 / 2) r then (f + 1)%Z
  else if Z.even f then f else (f + 1)%Z.

(** Rounding to nearest, ties to even, to a binary format with [p]
    significant bits: [x] is rounded to a multiple of the unit in the last
    place of its binade.  The exponent is not bounded: overflow to
    infinity and subnormal numbers are not modelled. *)
Definition float_round (p : Z) (x : R) : R :=
  if Req_dec_T x 0 then 0%R
  else
    let e := Int_part (ln (Rabs x) / ln 2) in
    let u := powerRZ 2 (e - (p - 1)) in
    (IZR (rne (x / u)) * u)%R.

(** binary32, the element format of [torch.FloatTensor]. *)
Definition binary32 : R -> R := float_round 24.

(** ** The masking stage in a floating-point format

    [rnd] is the rounding of the tensors' element format.  It is applied
    where the sentinel tensor is built (line 136) and where the label
    biases are added (line 148), the two places at which the magnitude of
    the sentinel makes rounding decide the result; everything else stays
    exact.  With the identity for [rnd] these are [mask_and_bias] and
    [forward_trace]. *)
Definition scale_rnd (rnd : R -> R) (c : R) (t : Tensor) : Tensor :=
  tmap (fun v => rnd (c * v)%R) t.

Definition tadd_rnd (rnd : R -> R) : Tensor -> Tensor -> result Tensor :=
  broadcast2 (fun u v => rnd (u + v)%R).

(** Lines 133-149 with rounded products and sums. *)
Definition mask_and_bias_rnd (rnd : R -> R) (weighted_aff adj_matrix : Tensor)
    (label_biases_att : option Tensor) : result Tensor :=
  weighted_aff_transposed <- transpose weighted_aff 2 3 ;;
  let zero_vec := scale_rnd rnd sentinel (ones_like weighted_aff_transposed) in
  s0 <- size adj_matrix 0 ;;
  s1 <- size adj_matrix 1 ;;
  s2 <- size adj_matrix 2 ;;
  adj_matrix <- view adj_matrix [Some s0; Some s1; Some s2; Some 1] ;;
  heads <- size_last weighted_aff_transposed ;;
  adj_matrix_expand <- expand adj_matrix [None; None; None; Some heads] ;;
  weighted_aff_masked <- where_pos adj_matrix_expand weighted_aff_transposed zero_vec ;;
  biases <- match label_biases_att with
            | Some t => unsqueeze t 3
            | None => Raise AttributeError
            end ;;
  weighted_aff_masked <- tadd_rnd rnd weighted_aff_masked biases ;;
  transpose weighted_aff_masked 2 3.

(** [forward] with that masking stage. *)
Definition forward_trace_rnd (rnd : R -> R) (L : GraphSelfAttentionLayer)
    (roi_feat : Tensor) (adj_matrix position_embedding label_biases_att : option Tensor)
  : result Trace :=
  sc <- content_scores L roi_feat ;;
  let weighted_aff := sc_aff_scale sc in
  weighted_aff <-
    match position_embedding with
    | Some pe =>
        if (0 <? pos_emb_dim L)%Z
        then add_position L (sc_batch_size sc) (sc_nongt_dim sc) weighted_aff pe
        else Ok weighted_aff
    | None => Ok weighted_aff
    end ;;
  weighted_aff <-
    match adj_matrix with
    | Some adj => mask_and_bias_rnd rnd weighted_aff adj label_biases_att
    | None => Ok weighted_aff
    end ;;
  mx <- aggregate L (sc_batch_size sc) (sc_num_rois sc) (sc_nongt_dim sc)
          (sc_v_data sc) weighted_aff ;;
  Ok (mkTrace (sc_nongt_dim sc) (sc_v_data sc) (sc_aff_scale sc) weighted_aff
              (mx_aff_softmax mx) (mx_output_t mx) (mx_output mx)).

(** The effect of the rounded lines 133-149 on a score [s] of the pair
    (region [i], neighbour [j]) of image [b]. *)
Definition masked_rnd (rnd : R -> R) (a l : Tensor) (b i j : nat) (s : R) : R :=
  rnd ((if Rlt_dec 0 (tget a [b; i; j]) then s else rnd sentinel) + tget l [b; i; j])%R.

(** Label biases 0 and 1 on the two neighbours of region 0. *)
Definition bias_small : Tensor := mkTensor [1; 2; 2] [0; 1; 0; 0]%R.

(** ** Execution of [forward] on the layer object

    The call is run on a machine that holds the layer object [self] and
    the list of the stages of [forward] that have run to completion.  An
    attribute of [self] is read from the machine; [forward] contains no
    assignment to one. *)
Inductive stage : Type :=
| Scoring        (* lines 68-106 *)
| Positional     (* lines 108-130 *)
| Masking        (* lines 133-146 *)
| Biasing        (* lines 148-149 *)
| Mixing.        (* lines 152-166 *)

Record Machine : Type := mkMachine {
  self : GraphSelfAttentionLayer;
  completed : list stage
}.

Definition Run (A : Type) : Type := Machine -> Machine * result A.

Definition ret {A : Type} (a : A) : Run A := fun m => (m, Ok a).

Definition bindR {A B : Type} (c : Run A) (k : A -> Run B) : Run B :=
  fun m =>
    match c m with
    | (m', Ok a) => k a m'
    | (m', Raise e) => (m', Raise e)
    end.

(** Reading [self]. *)
Definition getself : Run GraphSelfAttentionLayer := fun m => (m, Ok (self m)).

(** Running the operations of one stage: the stage is recorded when they
    all returned; an exception leaves the record as it was. *)
Definition perform {A : Type} (s : stage) (r : result A) : Run A :=
  fun m =>
    match r with
    | Ok a => (mkMachine (self m) (completed m ++ [s]), Ok a)
    | Raise e => (m, Raise e)
    end.

(** Lines 133-146: the mask. *)
Definition mask_only (weighted_aff adj_matrix : Tensor) : result Tensor :=
  weighted_aff_transposed <- transpose weighted_aff 2 3 ;;
  let zero_vec := scale sentinel (ones_like weighted_aff_transposed) in
  s0 <- size adj_matrix 0 ;;
  s1 <- size adj_matrix 1 ;;
  s2 <- size adj_matrix 2 ;;
  adj_matrix <- view adj_matrix [Some s0; Some s1; Some s2; Some 1] ;;
  heads <- size_last weighted_aff_transposed ;;
  adj_matrix_expand <- expand adj_matrix [None; None; None; Some heads] ;;
  where_pos adj_matrix_expand weighted_aff_transposed zero_vec.

(** Lines 148-149: the label biases. *)
Definition add_biases (weighted_aff_masked : Tensor) (label_biases_att : option Tensor)
  : result Tensor :=
  biases <- match label_biases_att with
            | Some t => unsqueeze t 3
            | None => Raise AttributeError
            end ;;
  weighted_aff_masked <- tadd weighted_aff_masked biases ;;
  transpose weighted_aff_masked 2 3.

(** [forward], stage by stage, on the machine. *)
Definition execute (roi_feat : Tensor)
    (adj_matrix position_embedding label_biases_att : option Tensor) : Run Tensor :=
  bindR getself (fun L =>
  bindR (perform Scoring (content_scores L roi_feat)) (fun sc =>
  bindR (match position_embedding with
         | Some pe =>
             bindR getself (fun L =>
             if (0 <? pos_emb_dim L)%Z
             then perform Positional
                    (add_position L (sc_batch_size sc) (sc_nongt_dim sc)
                       (sc_aff_scale sc) pe)
             else ret (sc_aff_scale sc))
         | None => ret (sc_aff_scale sc)
         end) (fun weighted_aff =>
  bindR (match adj_matrix with
         | Some adj =>
             bindR (perform Masking (mask_only weighted_aff adj)) (fun masked_aff =>
             perform Biasing (add_biases masked_aff label_biases_att))
         | None => ret weighted_aff
         end) (fun weighted_aff =>
  bindR getself (fun L =>
  bindR (perform Mixing
           (aggregate L (sc_batch_size sc) (sc_num_rois sc) (sc_nongt_dim sc)
              (sc_v_data sc) weighted_aff)) (fun mx =>
  ret (mx_output mx))))))).

(** Whether the positional stage is entered (the guard of line 108). *)
Definition position_runs (L : GraphSelfAttentionLayer) (pe : option Tensor) : bool :=
  match pe with
  | Some _ => (0 <? pos_emb_dim L)%Z
  | None => false
  end.
(** ** Facts about indexing *)

Lemma length_indices sh : length (indices sh) = numel sh.
Proof.
  induction sh as [|n sh IH]; simpl; [reflexivity|].
  generalize 0 as s.
  induction n as [|n IHn]; intro s; simpl; [reflexivity|].
  rewrite length_app, length_map, IH, IHn. reflexivity.
Qed.

Lemma ravel_lt sh : forall idx, in_range sh idx -> ravel sh idx < numel sh.
Proof.
  induction sh as [|n sh IH]; intros [|i idx]; simpl; try tauto; try lia.
  intros [Hi Hr]. specialize (IH _ Hr). nia.
Qed.

Lemma nth_blocks (A : Type) (g : nat -> list A) (m : nat) (d : A) :
  (forall i, length (g i) = m) ->
  forall n s i r, i < n -> r < m ->
    nth (i * m + r) (flat_map g (seq s n)) d = nth r (g (s + i)) d.
Proof.
  intros Hg. induction n as [|n IH]; intros s i r Hi Hr; [lia|].
  simpl. destruct i as [|i].
  - simpl. rewrite app_nth1 by (rewrite Hg; lia). now rewrite Nat.add_0_r.
  - rewrite app_nth2 by (rewrite Hg; simpl; lia).
    rewrite Hg. replace (S i * m + r - m) with (i * m + r) by (simpl; lia).
    rewrite IH by lia. f_equal. f_equal. lia.
Qed.

Lemma nth_indices sh : forall idx d,
  in_range sh idx -> nth (ravel sh idx) (indices sh) d = idx.
Proof.
  induction sh as [|n sh IH]; intros [|i idx] d; simpl; try tauto.
  intros [Hi Hr].
  rewrite nth_blocks with (m := numel sh).
  - simpl. rewrite nth_indep with (d' := i :: d).
    + rewrite map_nth. now rewrite IH.
    + rewrite length_map, length_indices. now apply ravel_lt.
  - intro. now rewrite length_map, length_indices.
  - exact Hi.
  - now apply ravel_lt.
Qed.

Lemma tget_tabulate sh f idx :
  in_range sh idx -> tget (tabulate sh f) idx = f idx.
Proof.
  intro H. unfold tget, tabulate; simpl.
  rewrite nth_indep with (d' := f idx).
  - rewrite map_nth. now rewrite nth_indices.
  - rewrite length_map, length_indices. now apply ravel_lt.
Qed.

Lemma well_formed_tabulate sh f : well_formed (tabulate sh f).
Proof. unfold well_formed, tabulate; simpl. now rewrite length_map, length_indices. Qed.


(** ** Specifications of the tensor operations at the ranks the layer uses *)

Lemma bdim_same a : bdim a a = Some a.
Proof. unfold bdim. now rewrite Nat.eqb_refl. Qed.

Lemma bdim_one_r a : bdim a 1 = Some a.
Proof.
  unfold bdim. destruct (a =? 1) eqn:E; [|reflexivity].
  apply Nat.eqb_eq in E. now subst.
Qed.

Lemma bsel n i : i < n -> (if n =? 1 then 0 else i) = i.
Proof.
  intro H. destruct (n =? 1) eqn:E; [|reflexivity].
  apply Nat.eqb_eq in E. lia.
Qed.

Lemma shape_eqb_refl s : shape_eqb s s = true.
Proof. unfold shape_eqb. now destruct (list_eq_dec Nat.eq_dec s s). Qed.

Lemma tget_view t sh idx idx' :
  ravel sh idx' = ravel (shape t) idx ->
  tget (mkTensor sh (data t)) idx' = tget t idx.
Proof. unfold tget; simpl. now intros ->. Qed.

Ltac range := cbn [in_range]; repeat split; (lia || nia).

Ltac tab := rewrite tget_tabulate by range.

Lemma slice_dim1_spec t n a b c :
  shape t = [a; b; c] ->
  exists t', slice_dim1 t n = Ok t' /\ shape t' = [a; Nat.min n b; c] /\
    forall i j k, i < a -> j < Nat.min n b -> k < c ->
      tget t' [i; j; k] = tget t [i; j; k].
Proof.
  intro Hs. unfold slice_dim1. rewrite Hs. eexists. split; [reflexivity|].
  split; [reflexivity|]. intros. now tab.
Qed.

Lemma apply_fc_spec3 m t a b c :
  shape t = [a; b; c] -> in_features m = c ->
  exists t', apply_fc m t = Ok t' /\ shape t' = [a; b; out_features m] /\
    forall i j k, i < a -> j < b -> k < out_features m ->
      tget t' [i; j; k] = fc_row m (row t [i; j] c) k.
Proof.
  intros Hs Hin. unfold apply_fc. rewrite Hs, Hin. cbn [rev app].
  rewrite Nat.eqb_refl. eexists. split; [reflexivity|]. split; [reflexivity|].
  intros. now tab.
Qed.

Lemma view_split t a b c h d :
  shape t = [a; b; c] -> c = h * d ->
  exists t', view t [Some a; Some b; Some h; Some d] = Ok t' /\
    shape t' = [a; b; h; d] /\
    forall i j p q, tget t' [i; j; p; q] = tget t [i; j; p * d + q].
Proof.
  intros Hs Hc. unfold view, infer_size. rewrite Hs.
  cbn [inferred filter length known fold_right numel map].
  replace (a * (b * (c * 1)) =? a * (b * (h * (d * 1)))) with true
    by (symmetry; apply Nat.eqb_eq; subst c; ring).
  cbn [bind]. eexists. split; [reflexivity|]. split; [reflexivity|].
  intros. apply tget_view. rewrite Hs. cbn [ravel numel fold_right]. subst c. ring.
Qed.

Lemma transpose_12 t a b c d :
  shape t = [a; b; c; d] ->
  exists t', transpose t 1 2 = Ok t' /\ shape t' = [a; c; b; d] /\
    forall i j k l, i < a -> j < c -> k < b -> l < d ->
      tget t' [i; j; k; l] = tget t [i; k; j; l].
Proof.
  intro Hs. unfold transpose. rewrite Hs. cbn. eexists. split; [reflexivity|].
  split; [reflexivity|]. intros. now tab.
Qed.

Lemma transpose_23 t a b c d :
  shape t = [a; b; c; d] ->
  exists t', transpose t 2 3 = Ok t' /\ shape t' = [a; b; d; c] /\
    forall i j k l, i < a -> j < b -> k < d -> l < c ->
      tget t' [i; j; k; l] = tget t [i; j; l; k].
Proof.
  intro Hs. unfold transpose. rewrite Hs. cbn. eexists. split; [reflexivity|].
  split; [reflexivity|]. intros. now tab.
Qed.

Lemma matmul_spec4 x y a b m k n :
  shape x = [a; b; m; k] -> shape y = [a; b; k; n] ->
  exists t', matmul x y = Ok t' /\ shape t' = [a; b; m; n] /\
    forall i j p q, i < a -> j < b -> p < m -> q < n ->
      tget t' [i; j; p; q]
      = sum_n k (fun c => (tget x [i; j; p; c] * tget y [i; j; c; q])%R).
Proof.
  intros Hx Hy. unfold matmul. rewrite Hx, Hy. cbn [rev app].
  rewrite Nat.eqb_refl. cbn [bshape_rev]. rewrite !bdim_same. cbn [rev app length].
  eexists. split; [reflexivity|]. split; [reflexivity|].
  intros. tab. cbn [firstn nth bidx length skipn Nat.sub combine map fst snd app].
  now rewrite !bsel by assumption.
Qed.

Lemma matmul_spec3 x y a m k n :
  shape x = [a; m; k] -> shape y = [a; k; n] ->
  exists t', matmul x y = Ok t' /\ shape t' = [a; m; n] /\
    forall i p q, i < a -> p < m -> q < n ->
      tget t' [i; p; q]
      = sum_n k (fun c => (tget x [i; p; c] * tget y [i; c; q])%R).
Proof.
  intros Hx Hy. unfold matmul. rewrite Hx, Hy. cbn [rev app].
  rewrite Nat.eqb_refl. cbn [bshape_rev]. rewrite !bdim_same. cbn [rev app length].
  eexists. split; [reflexivity|]. split; [reflexivity|].
  intros. tab. cbn [firstn nth bidx length skipn Nat.sub combine map fst snd app].
  now rewrite !bsel by assumption.
Qed.

Lemma tmap_spec g t idx :
  in_range (shape t) idx -> tget (tmap g t) idx = g (tget t idx).
Proof. intro H. unfold tmap. now rewrite tget_tabulate. Qed.

Lemma softmax_spec4 t a b c d :
  shape t = [a; b; c; d] ->
  exists t', softmax t 3 = Ok t' /\ shape t' = [a; b; c; d] /\
    forall i j k l, i < a -> j < b -> k < c -> l < d ->
      tget t' [i; j; k; l]
      = (exp (tget t [i; j; k; l]) / sum_n d (fun z => exp (tget t [i; j; k; z])))%R.
Proof.
  intro Hs. unfold softmax. rewrite Hs. cbn [nth_error].
  eexists. split; [reflexivity|]. split; [reflexivity|].
  intros. now tab.
Qed.

Lemma infer_one n newsize q :
  0 < newsize -> n = q * newsize ->
  (0 <? newsize) && (n mod newsize =? 0) = true /\ n / newsize = q.
Proof.
  intros Hpos ->. split.
  - apply andb_true_iff. split; [now apply Nat.ltb_lt|].
    apply Nat.eqb_eq. now apply Nat.Div0.mod_mul.
  - apply Nat.div_mul. lia.
Qed.

Lemma view_merge t a b c d :
  shape t = [a; b; c; d] -> 0 < a -> 0 < d ->
  exists t', view t [Some a; None; Some d] = Ok t' /\ shape t' = [a; b * c; d] /\
    forall i j k l, tget t' [i; j * c + k; l] = tget t [i; j; k; l].
Proof.
  intros Hs Ha Hd. unfold view, infer_size. rewrite Hs.
  cbn [inferred filter length known fold_right numel map].
  destruct (infer_one (a * (b * (c * (d * 1)))) (a * (d * 1)) (b * c)) as [E1 E2];
    [nia | ring |].
  rewrite E1, E2. cbn [bind]. eexists. split; [reflexivity|]. split; [reflexivity|].
  intros. apply tget_view. rewrite Hs. cbn [ravel numel fold_right]. ring.
Qed.

Lemma view_unmerge t a m b c d :
  shape t = [a; m; d] -> m = b * c -> 0 < a -> 0 < c -> 0 < d ->
  exists t', view t [Some a; None; Some c; Some d] = Ok t' /\
    shape t' = [a; b; c; d] /\
    forall i j k l, tget t' [i; j; k; l] = tget t [i; j * c + k; l].
Proof.
  intros Hs -> Ha Hc Hd. unfold view, infer_size. rewrite Hs.
  cbn [inferred filter length known fold_right numel map].
  destruct (infer_one (a * (b * c * (d * 1))) (a * (c * (d * 1))) b) as [E1 E2];
    [nia | ring |].
  rewrite E1, E2. cbn [bind]. eexists. split; [reflexivity|]. split; [reflexivity|].
  intros. apply tget_view. rewrite Hs. cbn [ravel numel fold_right]. ring.
Qed.

Lemma view_channels t a m n h f :
  shape t = [a; m; f] -> m = n * h -> 0 < h -> 0 < f ->
  exists t', view t [None; Some (h * f); Some 1; Some 1] = Ok t' /\
    shape t' = [a * n; h * f; 1; 1] /\
    forall i j p c, tget t' [i * n + j; p * f + c; 0; 0] = tget t [i; j * h + p; c].
Proof.
  intros Hs -> Hh Hf. unfold view, infer_size. rewrite Hs.
  cbn [inferred filter length known fold_right numel map].
  destruct (infer_one (a * (n * h * (f * 1))) (h * f * (1 * (1 * 1))) (a * n))
    as [E1 E2]; [nia | ring |].
  rewrite E1, E2. cbn [bind]. eexists. split; [reflexivity|]. split; [reflexivity|].
  intros. apply tget_view. rewrite Hs. cbn [ravel numel fold_right]. ring.
Qed.

Lemma view_rows t s a b f :
  shape t = [s; f; 1; 1] -> s = a * b ->
  exists t', view t [Some a; Some b; Some f] = Ok t' /\ shape t' = [a; b; f] /\
    data t' = data t /\
    forall i j o, tget t' [i; j; o] = tget t [i * b + j; o; 0; 0].
Proof.
  intros Hs ->. unfold view, infer_size. rewrite Hs.
  cbn [inferred filter length known fold_right numel map].
  replace (a * b * (f * (1 * (1 * 1))) =? a * (b * (f * 1))) with true
    by (symmetry; apply Nat.eqb_eq; ring).
  cbn [bind]. eexists. split; [reflexivity|]. split; [reflexivity|].
  split; [reflexivity|].
  intros. apply tget_view. rewrite Hs. cbn [ravel numel fold_right]. ring.
Qed.

Lemma view_trailing_one t a b c :
  shape t = [a; b; c] ->
  exists t', view t [Some a; Some b; Some c; Some 1] = Ok t' /\
    shape t' = [a; b; c; 1] /\
    forall i j k, tget t' [i; j; k; 0] = tget t [i; j; k].
Proof.
  intros Hs. unfold view, infer_size. rewrite Hs.
  cbn [inferred filter length known fold_right numel map].
  replace (a * (b * (c * 1)) =? a * (b * (c * (1 * 1)))) with true
    by (symmetry; apply Nat.eqb_eq; ring).
  cbn [bind]. eexists. split; [reflexivity|]. split; [reflexivity|].
  intros. apply tget_view. rewrite Hs. cbn [ravel numel fold_right]. ring.
Qed.

Lemma unsqueeze_3 t a b c :
  shape t = [a; b; c] ->
  exists t', unsqueeze t 3 = Ok t' /\ shape t' = [a; b; c; 1] /\
    forall i j k, tget t' [i; j; k; 0] = tget t [i; j; k].
Proof.
  intros Hs. unfold unsqueeze. rewrite Hs. cbn [length Nat.leb firstn skipn app].
  eexists. split; [reflexivity|]. split; [reflexivity|].
  intros. apply tget_view. rewrite Hs. cbn [ravel numel fold_right]. ring.
Qed.

Lemma apply_conv_spec m t s c :
  shape t = [s; c; 1; 1] -> in_channels m = c ->
  exists t', apply_conv m t = Ok t' /\ shape t' = [s; out_channels m; 1; 1] /\
    well_formed t' /\
    forall i o, i < s -> o < out_channels m ->
      tget t' [i; o; 0; 0]
      = (bias m o
         + sum_n (c / groups m) (fun ci =>
             weight m o ci
             * tget t [i; o / (out_channels m / groups m) * (c / groups m) + ci;
                       0; 0]%nat))%R.
Proof.
  intros Hs Hc. unfold apply_conv. rewrite Hs, Hc, Nat.eqb_refl.
  eexists. split; [reflexivity|]. split; [reflexivity|].
  split; [apply well_formed_tabulate|].
  intros. now tab.
Qed.

Lemma expand_heads t a b c h :
  shape t = [a; b; c; 1] ->
  exists t', expand t [None; None; None; Some h] = Ok t' /\ shape t' = [a; b; c; h] /\
    forall i j k l, i < a -> j < b -> k < c -> l < h ->
      tget t' [i; j; k; l] = tget t [i; j; k; 0].
Proof.
  intros Hs. unfold expand. rewrite Hs. cbn [expand_shape option_map Nat.eqb].
  rewrite orb_true_r. cbn [option_map].
  eexists. split; [reflexivity|]. split; [reflexivity|].
  intros. tab. cbn [bidx length skipn Nat.sub combine map fst snd Nat.eqb].
  now rewrite !bsel by assumption.
Qed.

Lemma broadcast_same4 a b c d :
  broadcast_shapes [a; b; c; d] [a; b; c; d] = Some [a; b; c; d].
Proof.
  unfold broadcast_shapes. cbn [rev app bshape_rev]. now rewrite !bdim_same.
Qed.

Lemma bidx_same4 a b c d i j k l :
  i < a -> j < b -> k < c -> l < d -> bidx [a; b; c; d] [i; j; k; l] = [i; j; k; l].
Proof.
  intros. cbn [bidx length skipn Nat.sub combine map fst snd].
  now rewrite !bsel by assumption.
Qed.

Lemma where_pos_spec4 m x y a b c d :
  shape m = [a; b; c; d] -> shape x = [a; b; c; d] -> shape y = [a; b; c; d] ->
  exists t', where_pos m x y = Ok t' /\ shape t' = [a; b; c; d] /\
    forall i j k l, i < a -> j < b -> k < c -> l < d ->
      tget t' [i; j; k; l]
      = if Rlt_dec 0 (tget m [i; j; k; l]) then tget x [i; j; k; l]
        else tget y [i; j; k; l].
Proof.
  intros Hm Hx Hy. unfold where_pos. rewrite Hm, Hx, Hy.
  rewrite !broadcast_same4.
  eexists. split; [reflexivity|]. split; [reflexivity|].
  intros. tab. now rewrite !bidx_same4 by assumption.
Qed.

Lemma tadd_heads x y a b c d :
  shape x = [a; b; c; d] -> shape y = [a; b; c; 1] ->
  exists t', tadd x y = Ok t' /\ shape t' = [a; b; c; d] /\
    forall i j k l, i < a -> j < b -> k < c -> l < d ->
      tget t' [i; j; k; l] = (tget x [i; j; k; l] + tget y [i; j; k; 0]%nat)%R.
Proof.
  intros Hx Hy. unfold tadd, broadcast2. rewrite Hx, Hy.
  unfold broadcast_shapes. cbn [rev app bshape_rev].
  rewrite !bdim_same, bdim_one_r. cbn [option_map rev app].
  eexists. split; [reflexivity|]. split; [reflexivity|].
  intros. tab. rewrite bidx_same4 by assumption.
  cbn [bidx length skipn Nat.sub combine map fst snd Nat.eqb].
  now rewrite !bsel by assumption.
Qed.

Lemma tmax_thresh x v a b c d :
  shape x = [a; b; c; d] ->
  exists t', tmax x (mkTensor [1] [v]) = Ok t' /\ shape t' = [a; b; c; d] /\
    forall i j k l, i < a -> j < b -> k < c -> l < d ->
      tget t' [i; j; k; l] = Rmax (tget x [i; j; k; l]) v.
Proof.
  intros Hx. unfold tmax, broadcast2. rewrite Hx.
  unfold broadcast_shapes. cbn [shape rev app bshape_rev].
  rewrite bdim_one_r. cbn [option_map rev app].
  eexists. split; [reflexivity|]. split; [reflexivity|].
  intros. tab. now rewrite bidx_same4 by assumption.
Qed.

Lemma iadd_spec4 x y a b c d :
  shape x = [a; b; c; d] -> shape y = [a; b; c; d] ->
  exists t', iadd x y = Ok t' /\ shape t' = [a; b; c; d] /\
    forall i j k l, i < a -> j < b -> k < c -> l < d ->
      tget t' [i; j; k; l] = (tget x [i; j; k; l] + tget y [i; j; k; l])%R.
Proof.
  intros Hx Hy. unfold iadd. rewrite Hx, Hy, broadcast_same4, shape_eqb_refl.
  eexists. split; [reflexivity|]. split; [reflexivity|].
  intros. tab. now rewrite !bidx_same4 by assumption.
Qed.

(** ** Finite sums and rows *)

Lemma sum_n_ext n f g :
  (forall j, j < n -> f j = g j) -> sum_n n f = sum_n n g.
Proof.
  intro H. unfold sum_n. f_equal. apply map_ext_in.
  intros j Hj. apply in_seq in Hj. apply H. lia.
Qed.

Lemma row_ext t t' pre pre' d :
  (forall c, c < d -> tget t (pre ++ [c]) = tget t' (pre' ++ [c])) ->
  row t pre d = row t' pre' d.
Proof.
  intro H. unfold row. apply map_ext_in.
  intros c Hc. apply in_seq in Hc. apply H. lia.
Qed.

(** ** The two optional stages *)

Lemma add_position_spec L m w pe B N H n P :
  shape w = [B; N; H; n] -> shape pe = [B; N; n; P] ->
  pos_emb_dim L = Z.of_nat P -> pair_pos_fc1 L = Some m ->
  in_features m = P -> out_features m = H -> fc_dim L = H ->
  0 < B -> 0 < n -> 0 < H -> 0 < P ->
  exists w', add_position L B n w pe = Ok w' /\ shape w' = [B; N; H; n] /\
    forall b i h j, b < B -> i < N -> h < H -> j < n ->
      tget w' [b; i; h; j]
      = (tget w [b; i; h; j]
         + ln (Rmax (Rmax (fc_row m (row pe [b; i; j] P) h) 0) thresh_value))%R.
Proof.
  intros Hw Hpe HP Hfc Hin Hout Hfcd HB Hn HH HPpos.
  unfold add_position, float. rewrite HP, Nat2Z.id, Hfc, Hfcd.
  destruct (view_merge pe B N n P Hpe HB HPpos) as (t1 & -> & S1 & V1).
  cbn [bind].
  destruct (apply_fc_spec3 m t1 _ _ _ S1 Hin) as (t2 & -> & S2 & V2).
  cbn [bind]. rewrite Hout in S2, V2.
  assert (S2r : shape (relu t2) = [B; N * n; H]) by exact S2.
  destruct (view_unmerge (relu t2) B (N * n) N n H S2r eq_refl HB Hn HH)
    as (t3 & -> & S3 & V3).
  cbn [bind].
  destruct (transpose_23 t3 _ _ _ _ S3) as (t4 & -> & S4 & V4).
  cbn [bind].
  destruct (tmax_thresh t4 thresh_value _ _ _ _ S4) as (t5 & -> & S5 & V5).
  cbn [bind].
  assert (S5l : shape (tlog t5) = [B; N; H; n]) by exact S5.
  destruct (iadd_spec4 w (tlog t5) _ _ _ _ Hw S5l) as (t6 & -> & S6 & V6).
  exists t6. split; [reflexivity|]. split; [exact S6|].
  intros b i h j Hb Hi Hh Hj.
  rewrite V6 by assumption. f_equal.
  unfold tlog. rewrite tmap_spec by (rewrite S5; range).
  rewrite V5, V4, V3 by assumption.
  unfold relu. rewrite tmap_spec by (rewrite S2; range).
  rewrite V2 by (try assumption; nia).
  replace (row t1 [b; i * n + j] P) with (row pe [b; i; j] P); [reflexivity|].
  apply row_ext. intros c Hc. cbn [app]. symmetry. apply V1.
Qed.

Lemma mask_and_bias_spec w adj l B N H n :
  shape w = [B; N; H; n] -> shape adj = [B; N; n] -> shape l = [B; N; n] ->
  exists w', mask_and_bias w adj (Some l) = Ok w' /\ shape w' = [B; N; H; n] /\
    forall b i h j, b < B -> i < N -> h < H -> j < n ->
      tget w' [b; i; h; j]
      = ((if Rlt_dec 0 (tget adj [b; i; j]) then tget w [b; i; h; j] else sentinel)
         + tget l [b; i; j])%R.
Proof.
  intros Hw Ha Hl. unfold mask_and_bias.
  destruct (transpose_23 w _ _ _ _ Hw) as (t1 & -> & S1 & V1).
  cbn [bind]. unfold size. rewrite Ha. cbn [nth_error bind].
  destruct (view_trailing_one adj _ _ _ Ha) as (t2 & -> & S2 & V2).
  cbn [bind]. unfold size_last. rewrite S1. cbn [rev app bind].
  destruct (expand_heads t2 _ _ _ H S2) as (t3 & -> & S3 & V3).
  cbn [bind].
  assert (Sz : shape (scale sentinel (ones_like t1)) = [B; N; n; H]) by exact S1.
  destruct (where_pos_spec4 t3 t1 _ _ _ _ _ S3 S1 Sz) as (t4 & -> & S4 & V4).
  cbn [bind].
  destruct (unsqueeze_3 l _ _ _ Hl) as (t5 & -> & S5 & V5).
  cbn [bind].
  destruct (tadd_heads t4 t5 _ _ _ _ S4 S5) as (t6 & -> & S6 & V6).
  cbn [bind].
  destruct (transpose_23 t6 _ _ _ _ S6) as (t7 & -> & S7 & V7).
  exists t7. split; [reflexivity|]. split; [exact S7|].
  intros b i h j Hb Hi Hh Hj.
  rewrite V7, V6, V5, V4, V3, V2, V1 by assumption.
  f_equal. destruct (Rlt_dec 0 (tget adj [b; i; j])); [reflexivity|].
  unfold scale, ones_like.
  rewrite tmap_spec by (cbn [shape tmap tabulate]; rewrite S1; range).
  rewrite tmap_spec by (rewrite S1; range).
  apply Rmult_1_r.
Qed.
Lemma init_ok F n0 P H theta L :
  init F n0 P H theta = Ok L ->
  0 < H /\ F mod H = 0 /\
  L = mkLayer H F (F, F, F) (F / H, F / H, F / H) H P
        (if (0 <? P)%Z then Some (mkFCNet (Z.to_nat P) H (pos_fn theta)) else None)
        (mkFCNet F F (query_fn theta)) n0 (mkFCNet F F (key_fn theta))
        (mkConv2d (H * F) F H (out_weight theta) (out_bias theta)).
Proof.
  unfold init, Conv2d_init, item0, item1, item2. cbn [fst snd].
  destruct (H =? 0) eqn:EH; [discriminate|].
  apply Nat.eqb_neq in EH.
  destruct ((H * F) mod H =? 0); cbn [negb bind]; [|discriminate].
  destruct (F mod H =? 0) eqn:EF; cbn [negb bind]; [|discriminate].
  apply Nat.eqb_eq in EF. intro E. injection E as <-.
  repeat split; [lia | exact EF].
Qed.

Lemma nongt_min n0 N : (if n0 <? N then n0 else N) = Nat.min n0 N.
Proof. destruct (n0 <? N) eqn:E; [apply Nat.ltb_lt in E | apply Nat.ltb_ge in E]; lia. Qed.

(** ** The three stages of [forward] on well-shaped inputs *)

Lemma content_scores_spec F n0 P H theta L B N x :
  init F n0 P H theta = Ok L -> shape x = [B; N; F] -> 0 < F ->
  exists sc, content_scores L x = Ok sc /\
    sc_batch_size sc = B /\ sc_num_rois sc = N /\ sc_nongt_dim sc = Nat.min n0 N /\
    shape (sc_v_data sc) = [B; Nat.min n0 N; F] /\
    (forall b j c, b < B -> j < Nat.min n0 N -> c < F ->
       tget (sc_v_data sc) [b; j; c] = tget x [b; j; c]) /\
    shape (sc_aff_scale sc) = [B; N; H; Nat.min n0 N] /\
    (forall b i h j, b < B -> i < N -> h < H -> j < Nat.min n0 N ->
       tget (sc_aff_scale sc) [b; i; h; j]
       = (1 / sqrt (INR (F / H))
          * sum_n (F / H) (fun c =>
              query_fn theta (row x [b; i] F) (h * (F / H) + c)%nat
              * key_fn theta (row x [b; j] F) (h * (F / H) + c)%nat))%R).
Proof.
  intros Hinit Hx HF.
  destruct (init_ok _ _ _ _ _ _ Hinit) as (HH & Hmod & HL).
  set (dg := F / H) in *.
  assert (HFdg : F = H * dg) by (now apply Nat.Div0.div_exact).
  assert (Hdg : 0 < dg) by nia.
  set (n := Nat.min n0 N) in *.
  assert (HnN : Nat.min n N = n) by lia.
  unfold content_scores, size. rewrite Hx. cbn [nth_error bind].
  replace (nongt_dim L) with n0 by (now subst L).
  rewrite nongt_min. fold n.
  destruct (slice_dim1_spec x n B N F Hx) as (v & -> & Sv & Vv).
  rewrite HnN in Sv, Vv. cbn [bind].
  destruct (apply_fc_spec3 (query L) x B N F Hx) as (q1 & -> & Sq1 & Vq1);
    [now subst L|].
  cbn [bind].
  replace (out_features (query L)) with F in Sq1, Vq1 by (now subst L).
  replace (num_heads L) with H by (now subst L).
  replace (item0 (dim_group L)) with dg by (now subst L).
  replace (item1 (dim_group L)) with dg by (now subst L).
  destruct (view_split q1 B N F H dg Sq1 HFdg) as (q2 & -> & Sq2 & Vq2).
  cbn [bind].
  destruct (transpose_12 q2 _ _ _ _ Sq2) as (q3 & -> & Sq3 & Vq3).
  cbn [bind].
  destruct (apply_fc_spec3 (key L) v B n F Sv) as (k1 & -> & Sk1 & Vk1);
    [now subst L|].
  cbn [bind].
  replace (out_features (key L)) with F in Sk1, Vk1 by (now subst L).
  destruct (view_split k1 B n F H dg Sk1 HFdg) as (k2 & -> & Sk2 & Vk2).
  cbn [bind].
  destruct (transpose_12 k2 _ _ _ _ Sk2) as (k3 & -> & Sk3 & Vk3).
  cbn [bind].
  destruct (transpose_23 k3 _ _ _ _ Sk3) as (k4 & -> & Sk4 & Vk4).
  cbn [bind].
  destruct (matmul_spec4 q3 k4 _ _ _ _ _ Sq3 Sk4) as (aff & -> & Saff & Vaff).
  cbn [bind].
  replace (dg =? 0) with false by (symmetry; apply Nat.eqb_neq; lia).
  cbn [bind].
  set (factor := (1 / sqrt (INR dg))%R).
  assert (Ssc : shape (scale factor aff) = [B; H; N; n]) by exact Saff.
  destruct (transpose_12 (scale factor aff) _ _ _ _ Ssc) as (w0 & -> & Sw0 & Vw0).
  cbn [bind].
  eexists. split; [reflexivity|].
  cbn [sc_batch_size sc_num_rois sc_nongt_dim sc_v_data sc_aff_scale].
  repeat split; try assumption.
  intros b i h j Hb Hi Hh Hj. rewrite Vw0 by assumption.
  unfold scale. rewrite tmap_spec by (rewrite Saff; range).
  rewrite Vaff by assumption. f_equal. apply sum_n_ext. intros c Hc.
  rewrite Vq3, Vq2, Vq1 by (try assumption; nia).
  rewrite Vk4, Vk3, Vk2, Vk1 by (try assumption; nia).
  subst L. cbn [query key fc_row].
  do 2 f_equal. apply row_ext. intros c' Hc'. cbn [app]. now apply Vv.
Qed.

Lemma aggregate_spec F n0 P H theta L B N n v w :
  init F n0 P H theta = Ok L ->
  shape w = [B; N; H; n] -> shape v = [B; n; F] -> 0 < B -> 0 < n -> 0 < F ->
  exists mx, aggregate L B N n v w = Ok mx /\
    shape (mx_aff_softmax mx) = [B; N; H; n] /\
    (forall b i h j, b < B -> i < N -> h < H -> j < n ->
       tget (mx_aff_softmax mx) [b; i; h; j]
       = (exp (tget w [b; i; h; j]) / sum_n n (fun z => exp (tget w [b; i; h; z])))%R) /\
    shape (mx_output_t mx) = [B; N * H; F] /\
    (forall b i h c, b < B -> i < N -> h < H -> c < F ->
       tget (mx_output_t mx) [b; i * H + h; c]
       = sum_n n (fun j =>
           (tget (mx_aff_softmax mx) [b; i; h; j] * tget v [b; j; c])%R)) /\
    shape (mx_output mx) = [B; N; F] /\
    well_formed (mx_output mx) /\
    (forall b i o, b < B -> i < N -> o < F ->
       tget (mx_output mx) [b; i; o]
       = (out_bias theta o
          + sum_n F (fun c =>
              out_weight theta o c
              * tget (mx_output_t mx) [b; (i * H + o / (F / H))%nat; c]))%R).
Proof.
  intros Hinit Sw Sv HB Hn HF.
  destruct (init_ok _ _ _ _ _ _ Hinit) as (HH & Hmod & HL).
  unfold aggregate.
  destruct (softmax_spec4 w _ _ _ _ Sw) as (sm & -> & Ssm & Vsm).
  cbn [bind].
  destruct (view_merge sm B N H n Ssm HB Hn) as (smr & -> & Ssmr & Vsmr).
  cbn [bind].
  destruct (matmul_spec3 smr v _ _ _ _ Ssmr Sv) as (ot & -> & Sot & Vot).
  cbn [bind].
  replace (feat_dim L) with F by (now subst L).
  replace (fc_dim L) with H by (now subst L).
  destruct (view_channels ot B (N * H) N H F Sot eq_refl HH HF)
    as (otv & -> & Sotv & Votv).
  cbn [bind].
  destruct (apply_conv_spec (linear_out_ L) otv _ _ Sotv)
    as (lo & -> & Slo & Wlo & Vlo); [now subst L|].
  cbn [bind].
  replace (out_channels (linear_out_ L)) with F in Slo, Vlo by (now subst L).
  replace (groups (linear_out_ L)) with H in Vlo by (now subst L).
  replace (item2 (dim L)) with F by (now subst L).
  destruct (view_rows lo (B * N) B N F Slo eq_refl) as (out & -> & Sout & Dout & Vout).
  cbn [bind].
  eexists. split; [reflexivity|].
  assert (Ecg : H * F / H = F) by (rewrite Nat.mul_comm; apply Nat.div_mul; lia).
  cbn [mx_aff_softmax mx_output_t mx_output].
  split; [exact Ssm|]. split; [exact Vsm|]. split; [exact Sot|].
  split.
  { intros b i h c Hb Hi Hh Hc. rewrite Vot by (try assumption; nia).
    apply sum_n_ext. intros j Hj. now rewrite Vsmr. }
  split; [exact Sout|].
  split.
  { unfold well_formed. rewrite Sout, Dout, Wlo, Slo. cbn [numel fold_right]. ring. }
  intros b i o Hb Hi Ho. rewrite Vout, Vlo by (try assumption; nia).
  rewrite Ecg. subst L. cbn [linear_out_ bias weight].
  f_equal. apply sum_n_ext. intros c Hc. now rewrite Votv.
Qed.

Lemma position_stage_spec F n0 P H theta L B N n w0 pe :
  init F n0 P H theta = Ok L ->
  shape w0 = [B; N; H; n] -> 0 < B -> 0 < n ->
  match pe with
  | Some p => (0 < P)%Z -> shape p = [B; N; n; Z.to_nat P]
  | None => True
  end ->
  exists w1,
    match pe with
    | Some p => if (0 <? pos_emb_dim L)%Z then add_position L B n w0 p else Ok w0
    | None => Ok w0
    end = Ok w1 /\ shape w1 = [B; N; H; n] /\
    forall b i h j, b < B -> i < N -> h < H -> j < n ->
      tget w1 [b; i; h; j] = (tget w0 [b; i; h; j] + position_term L pe b i h j)%R.
Proof.
  intros Hinit Sw0 HB Hn Hpe.
  destruct (init_ok _ _ _ _ _ _ Hinit) as (HH & Hmod & HL).
  assert (HLP : pos_emb_dim L = P) by (now subst L).
  assert (HLpp : pair_pos_fc1 L
                 = if (0 <? P)%Z then Some (mkFCNet (Z.to_nat P) H (pos_fn theta))
                   else None) by (now subst L).
  assert (HLfc : fc_dim L = H) by (now subst L).
  unfold position_term. rewrite HLpp, HLP.
  destruct pe as [p|].
  - destruct (0 <? P)%Z eqn:EP.
    + apply Z.ltb_lt in EP. specialize (Hpe EP).
      apply add_position_spec with (N := N) (P := Z.to_nat P);
        try assumption; try reflexivity; try lia.
    + exists w0. split; [reflexivity|]. split; [exact Sw0|].
      intros. now rewrite Rplus_0_r.
  - exists w0. split; [reflexivity|]. split; [exact Sw0|].
    intros. now rewrite Rplus_0_r.
Qed.

Lemma mask_stage_spec B N H n w1 adj lb :
  shape w1 = [B; N; H; n] ->
  match adj with
  | Some a => shape a = [B; N; n] /\ exists l, lb = Some l /\ shape l = [B; N; n]
  | None => True
  end ->
  exists w2,
    match adj with
    | Some a => mask_and_bias w1 a lb
    | None => Ok w1
    end = Ok w2 /\ shape w2 = [B; N; H; n] /\
    forall b i h j, b < B -> i < N -> h < H -> j < n ->
      tget w2 [b; i; h; j] = masked adj lb b i j (tget w1 [b; i; h; j]).
Proof.
  intros Sw1 Hadj. unfold masked. destruct adj as [a|].
  - destruct Hadj as (Sa & l & -> & Sl). now apply mask_and_bias_spec.
  - exists w1. split; [reflexivity|]. split; [exact Sw1|]. reflexivity.
Qed.

(** Without label biases the masking stage raises at line 148, after the
    mask itself has been computed. *)
Lemma mask_and_bias_none w adj B N H n :
  shape w = [B; N; H; n] -> shape adj = [B; N; n] ->
  mask_and_bias w adj None = Raise AttributeError.
Proof.
  intros Hw Ha. unfold mask_and_bias.
  destruct (transpose_23 w _ _ _ _ Hw) as (t1 & -> & S1 & V1).
  cbn [bind]. unfold size. rewrite Ha. cbn [nth_error bind].
  destruct (view_trailing_one adj _ _ _ Ha) as (t2 & -> & S2 & V2).
  cbn [bind]. unfold size_last. rewrite S1. cbn [rev app bind].
  destruct (expand_heads t2 _ _ _ H S2) as (t3 & -> & S3 & V3).
  cbn [bind].
  assert (Sz : shape (scale sentinel (ones_like t1)) = [B; N; n; H]) by exact S1.
  destruct (where_pos_spec4 t3 t1 _ _ _ _ _ S3 S1 Sz) as (t4 & -> & S4 & V4).
  reflexivity.
Qed.

(** The whole call on valid inputs. *)
Lemma forward_trace_spec F n0 P H theta L B N x adj pe lb :
  init F n0 P H theta = Ok L ->
  valid_inputs F n0 P B N x adj pe lb ->
  exists tr, forward_trace L x adj pe lb = Ok tr /\ trace_facts L B N x adj pe lb tr.
Proof.
  intros Hinit (HB & HN & Hn0 & HF & Hx & Hadj & Hpe).
  destruct (init_ok _ _ _ _ _ _ Hinit) as (HH & Hmod & HL).
  set (n := Nat.min n0 N) in *.
  assert (Hn : 0 < n) by lia.
  unfold forward_trace.
  destruct (content_scores_spec _ _ _ _ _ _ B N x Hinit Hx HF)
    as (sc & -> & EB & EN & En & Sv & Vv & Sw0 & Vw0).
  cbn [bind]. rewrite EB, EN, En. fold n in Sv, Vv, Sw0, Vw0 |- *.
  destruct (position_stage_spec _ _ _ _ _ _ B N n (sc_aff_scale sc) pe
              Hinit Sw0 HB Hn Hpe) as (w1 & E1 & Sw1 & Vw1).
  rewrite E1. clear E1. cbn [bind].
  destruct (mask_stage_spec B N H n w1 adj lb Sw1 Hadj)
    as (w2 & E2 & Sw2 & Vw2).
  rewrite E2. clear E2. cbn [bind].
  destruct (aggregate_spec _ _ _ _ _ _ B N n (sc_v_data sc) w2 Hinit Sw2 Sv HB Hn HF)
    as (mx & -> & Ssm & Vsm & Sot & Vot & Sout & Wout & Vout).
  cbn [bind].
  eexists. split; [reflexivity|].
  subst L.
  constructor;
    cbn [tr_nongt_dim tr_v_data tr_aff_scale tr_weighted_aff tr_aff_softmax
         tr_output_t tr_output nongt_dim feat_dim num_heads dim dim_group
         linear_out_ query key fc_row item1 item2 fst snd weight bias] in *;
    rewrite ?En; fold n; try assumption.
  - reflexivity.
  - intros b i h j Hb Hi Hh Hj. now rewrite Vw2, Vw1.
Qed.

(** ** Sums of reals and the softmax *)

Lemma sum_n_S n f : sum_n (S n) f = (sum_n n f + f n)%R.
Proof.
  unfold sum_n. rewrite seq_S, map_app. cbn [map Nat.add].
  generalize (map f (seq 0 n)) as l.
  induction l as [|a l IH]; cbn [fold_right app]; [ring|].
  rewrite IH. ring.
Qed.

Lemma sum_n_nonneg n f :
  (forall j, j < n -> (0 <= f j)%R) -> (0 <= sum_n n f)%R.
Proof.
  induction n as [|n IH]; intro H; [unfold sum_n; cbn; lra|].
  rewrite sum_n_S. assert (0 <= f n)%R by (apply H; lia).
  assert (0 <= sum_n n f)%R by (apply IH; intros; apply H; lia). lra.
Qed.

Lemma sum_n_ge_term n f k :
  (forall j, j < n -> (0 <= f j)%R) -> k < n -> (f k <= sum_n n f)%R.
Proof.
  induction n as [|n IH]; intros H Hk; [lia|].
  rewrite sum_n_S.
  assert (0 <= f n)%R by (apply H; lia).
  assert (0 <= sum_n n f)%R by (apply sum_n_nonneg; intros; apply H; lia).
  destruct (Nat.eq_dec k n) as [->|Hne]; [lra|].
  assert (f k <= sum_n n f)%R by (apply IH; [intros; apply H|]; lia). lra.
Qed.

Lemma sum_n_pos n f :
  0 < n -> (forall j, j < n -> (0 < f j)%R) -> (0 < sum_n n f)%R.
Proof.
  intros Hn H.
  apply Rlt_le_trans with (f 0); [apply H; lia|].
  apply sum_n_ge_term; [|lia]. intros j Hj. apply Rlt_le. now apply H.
Qed.

Lemma sum_n_scal n c f : sum_n n (fun j => c * f j)%R = (c * sum_n n f)%R.
Proof.
  induction n as [|n IH]; [unfold sum_n; cbn; ring|].
  rewrite !sum_n_S, IH. ring.
Qed.

Lemma sum_n_div n f s : sum_n n (fun j => f j / s)%R = (sum_n n f / s)%R.
Proof.
  unfold Rdiv. induction n as [|n IH]; [unfold sum_n; cbn; ring|].
  rewrite !sum_n_S, IH. ring.
Qed.

Lemma sum_n_const n c : sum_n n (fun _ => c) = (INR n * c)%R.
Proof.
  induction n as [|n IH]; [unfold sum_n; cbn; ring|].
  rewrite sum_n_S, IH, S_INR. ring.
Qed.

Lemma sum_exp_pos n (g : nat -> R) : 0 < n -> (0 < sum_n n (fun z => exp (g z)))%R.
Proof. intro Hn. apply sum_n_pos; [exact Hn|]. intros. apply exp_pos. Qed.

(** ** Calls outside the declared preconditions *)

Lemma forward_ignores_position L x adj p lb :
  (pos_emb_dim L <= 0)%Z ->
  forward_trace L x adj (Some p) lb = forward_trace L x adj None lb.
Proof.
  intro HP. unfold forward_trace.
  replace (0 <? pos_emb_dim L)%Z with false by (symmetry; apply Z.ltb_ge; exact HP).
  reflexivity.
Qed.

Lemma tadd_broadcast_row x y a b c d :
  shape x = [a; b; c; d] -> shape y = [a; b; 1; 1] ->
  exists t', tadd x y = Ok t' /\ shape t' = [a; b; c; d].
Proof.
  intros Hx Hy. unfold tadd, broadcast2. rewrite Hx, Hy.
  unfold broadcast_shapes. cbn [rev app bshape_rev].
  rewrite !bdim_same, !bdim_one_r. cbn [option_map rev app].
  eexists. split; reflexivity.
Qed.

Lemma mask_and_bias_narrow w adj l B N H n :
  shape w = [B; N; H; n] -> shape adj = [B; N; n] -> shape l = [B; N; 1] ->
  exists w', mask_and_bias w adj (Some l) = Ok w' /\ shape w' = [B; N; H; n].
Proof.
  intros Hw Ha Hl. unfold mask_and_bias.
  destruct (transpose_23 w _ _ _ _ Hw) as (t1 & -> & S1 & V1).
  cbn [bind]. unfold size. rewrite Ha. cbn [nth_error bind].
  destruct (view_trailing_one adj _ _ _ Ha) as (t2 & -> & S2 & V2).
  cbn [bind]. unfold size_last. rewrite S1. cbn [rev app bind].
  destruct (expand_heads t2 _ _ _ H S2) as (t3 & -> & S3 & V3).
  cbn [bind].
  assert (Sz : shape (scale sentinel (ones_like t1)) = [B; N; n; H]) by exact S1.
  destruct (where_pos_spec4 t3 t1 _ _ _ _ _ S3 S1 Sz) as (t4 & -> & S4 & V4).
  cbn [bind].
  destruct (unsqueeze_3 l _ _ _ Hl) as (t5 & -> & S5 & V5).
  cbn [bind].
  destruct (tadd_broadcast_row t4 t5 _ _ _ _ S4 S5) as (t6 & -> & S6).
  cbn [bind].
  destruct (transpose_23 t6 _ _ _ _ S6) as (t7 & -> & S7 & V7).
  exists t7. split; [reflexivity | exact S7].
Qed.

Lemma forward_accepts_narrow_biases F n0 P H theta L B N x a l :
  init F n0 P H theta = Ok L ->
  0 < B -> 0 < N -> 0 < n0 -> 0 < F ->
  shape x = [B; N; F] -> shape a = [B; N; Nat.min n0 N] -> shape l = [B; N; 1] ->
  exists out, forward L x (Some a) None (Some l) = Ok out /\ shape out = [B; N; F].
Proof.
  intros Hinit HB HN Hn0 HF Hx Ha Hl.
  unfold forward, forward_trace.
  destruct (content_scores_spec _ _ _ _ _ _ B N x Hinit Hx HF)
    as (sc & -> & EB & EN & En & Sv & Vv & Sw0 & Vw0).
  cbn [bind]. rewrite EB, EN, En.
  destruct (mask_and_bias_narrow _ _ _ _ _ _ _ Sw0 Ha Hl) as (w2 & -> & Sw2).
  cbn [bind].
  destruct (aggregate_spec _ _ _ _ _ _ B N _ (sc_v_data sc) w2 Hinit Sw2 Sv)
    as (mx & -> & _ & _ & _ & _ & Sout & _); try lia.
  cbn [bind]. eexists. split; [reflexivity | exact Sout].
Qed.

Lemma forward_missing_biases F n0 P H theta L B N x a pe l :
  init F n0 P H theta = Ok L ->
  valid_inputs F n0 P B N x (Some a) pe (Some l) ->
  forward L x (Some a) pe None = Raise AttributeError.
Proof.
  intros Hinit (HB & HN & Hn0 & HF & Hx & (Sa & _) & Hpe).
  unfold forward, forward_trace.
  destruct (content_scores_spec _ _ _ _ _ _ B N x Hinit Hx HF)
    as (sc & -> & EB & EN & En & Sv & Vv & Sw0 & Vw0).
  cbn [bind]. rewrite EB, EN, En.
  destruct (position_stage_spec _ _ _ _ _ _ B N _ (sc_aff_scale sc) pe
              Hinit Sw0 HB) as (w1 & E1 & Sw1 & _); [lia | exact Hpe |].
  rewrite E1. cbn [bind].
  now rewrite (mask_and_bias_none w1 a _ _ _ _ Sw1 Sa).
Qed.

Lemma forward_wrong_width F n0 P H theta L B N F' x adj pe lb :
  init F n0 P H theta = Ok L ->
  shape x = [B; N; F'] -> F' <> F ->
  forward L x adj pe lb = Raise RuntimeError.
Proof.
  intros Hinit Hx Hne.
  destruct (init_ok _ _ _ _ _ _ Hinit) as (_ & _ & HL).
  unfold forward, forward_trace, content_scores, size, slice_dim1, apply_fc.
  rewrite Hx. cbn [nth_error bind rev app].
  replace (in_features (query L)) with F by (now subst L).
  replace (F' =? F) with false by (symmetry; now apply Nat.eqb_neq).
  reflexivity.
Qed.

Lemma init_rejects_indivisible F n0 P H theta :
  0 < H -> F mod H <> 0 -> init F n0 P H theta = Raise ValueError.
Proof.
  intros HH Hmod. unfold init, Conv2d_init, item0, item1, item2. cbn [fst snd].
  replace (H =? 0) with false by (symmetry; apply Nat.eqb_neq; lia).
  replace ((H * F) mod H =? 0) with true
    by (symmetry; apply Nat.eqb_eq; rewrite Nat.mul_comm; apply Nat.Div0.mod_mul).
  replace (F mod H =? 0) with false by (symmetry; now apply Nat.eqb_neq).
  reflexivity.
Qed.

(** ** The layer on valid inputs *)

Lemma unit_layer_init n0 P : init 1 n0 P 1 theta_unit = Ok (unit_layer n0 P).
Proof. reflexivity. Qed.

(** C6. For every call of [forward] on valid inputs the effective
    neighbourhood size is [min nongt_dim N] (so a cap above [N] clamps to
    [N] and the call succeeds), the neighbour pool [v_data] consists of the
    first [min nongt_dim N] rows of the input features, and the rows that
    are aggregated are those raw feature rows: no value projection is
    applied. *)
Theorem forward_neighbour_pool F n0 P H theta L B N x adj pe lb :
  init F n0 P H theta = Ok L ->
  valid_inputs F n0 P B N x adj pe lb ->
  exists tr, forward_trace L x adj pe lb = Ok tr /\
    tr_nongt_dim tr = Nat.min (nongt_dim L) N /\
    (N <= nongt_dim L -> tr_nongt_dim tr = N) /\
    shape (tr_v_data tr) = [B; Nat.min (nongt_dim L) N; feat_dim L] /\
    (forall b j c, b < B -> j < Nat.min (nongt_dim L) N -> c < feat_dim L ->
       tget (tr_v_data tr) [b; j; c] = tget x [b; j; c]) /\
    (forall b i h c, b < B -> i < N -> h < num_heads L -> c < feat_dim L ->
       tget (tr_output_t tr) [b; i * num_heads L + h; c]
       = sum_n (Nat.min (nongt_dim L) N) (fun j =>
           (tget (tr_aff_softmax tr) [b; i; h; j] * tget x [b; j; c])%R)).
Proof.
  intros Hinit Hvalid.
  destruct (forward_trace_spec _ _ _ _ _ _ _ _ _ _ _ _ Hinit Hvalid) as (tr & E & T).
  destruct T as [Tn Tvs Tv _ _ _ _ _ _ _ Tot _ _ _].
  exists tr. split; [exact E|]. rewrite Tn in *.
  split; [reflexivity|]. split; [lia|]. split; [exact Tvs|]. split; [exact Tv|].
  intros b i h c Hb Hi Hh Hc. rewrite Tot by assumption.
  apply sum_n_ext. intros j Hj. now rewrite Tv.
Qed.

Lemma forward_neighbour_pool_witness :
  exists tr, forward_trace (unit_layer 20 (-1)) five_regions None None None = Ok tr /\
    tr_nongt_dim tr = 5.
Proof.
  destruct (forward_neighbour_pool 1 20 (-1) 1 theta_unit (unit_layer 20 (-1)) 1 5
              five_regions None None None (unit_layer_init 20 (-1)))
    as (tr & E & _ & Hclamp & _).
  - unfold valid_inputs, five_regions. cbn. repeat split; lia.
  - exists tr. split; [exact E|]. apply Hclamp. cbn. lia.
Defined.

(** C7. On valid inputs of shape (B, N, featDim), [forward] returns a
    tensor of shape (B, N, outputDim), whatever N and the neighbourhood
    size are and whichever optional inputs are supplied. *)
Theorem forward_output_shape F n0 P H theta L B N x adj pe lb :
  init F n0 P H theta = Ok L ->
  valid_inputs F n0 P B N x adj pe lb ->
  exists out, forward L x adj pe lb = Ok out /\
    shape out = [B; N; item2 (dim L)] /\ well_formed out.
Proof.
  intros Hinit Hvalid.
  destruct (forward_trace_spec _ _ _ _ _ _ _ _ _ _ _ _ Hinit Hvalid) as (tr & E & T).
  exists (tr_output tr). unfold forward. rewrite E. cbn [bind].
  split; [reflexivity|]. split; [apply (tf_output_shape _ _ _ _ _ _ _ _ T)|].
  apply (tf_output_wf _ _ _ _ _ _ _ _ T).
Qed.

Lemma forward_output_shape_witness :
  exists out,
    forward (unit_layer 2 1) two_regions (Some adj_half) (Some pos_two) (Some bias_zero)
    = Ok out /\ shape out = [1; 2; 1] /\ well_formed out.
Proof.
  apply (forward_output_shape 1 2 1 1 theta_unit (unit_layer 2 1) 1 2 two_regions
           (Some adj_half) (Some pos_two) (Some bias_zero) (unit_layer_init 2 1)).
  unfold valid_inputs. cbn. repeat split; try lia.
  exists bias_zero. split; reflexivity.
Defined.

(** C8. After the normalisation stage, for every (batch, region, head) the
    softmax weights over the neighbourhood axis are non-negative and sum
    to 1, and each weight is the exponential of its score divided by the
    sum over the neighbourhood axis only. *)
Theorem softmax_rows_normalised F n0 P H theta L B N x adj pe lb :
  init F n0 P H theta = Ok L ->
  valid_inputs F n0 P B N x adj pe lb ->
  exists tr, forward_trace L x adj pe lb = Ok tr /\
    forall b i h, b < B -> i < N -> h < num_heads L ->
      (forall j, j < tr_nongt_dim tr ->
         (0 <= tget (tr_aff_softmax tr) [b; i; h; j])%R) /\
      sum_n (tr_nongt_dim tr) (fun j => tget (tr_aff_softmax tr) [b; i; h; j]) = 1%R /\
      (forall j, j < tr_nongt_dim tr ->
         tget (tr_aff_softmax tr) [b; i; h; j]
         = (exp (tget (tr_weighted_aff tr) [b; i; h; j])
            / sum_n (tr_nongt_dim tr) (fun z =>
                exp (tget (tr_weighted_aff tr) [b; i; h; z])))%R).
Proof.
  intros Hinit Hvalid.
  destruct (forward_trace_spec _ _ _ _ _ _ _ _ _ _ _ _ Hinit Hvalid) as (tr & E & T).
  exists tr. split; [exact E|]. intros b i h Hb Hi Hh.
  pose proof (tf_softmax _ _ _ _ _ _ _ _ T b i h) as Vsm.
  assert (Hn : 0 < tr_nongt_dim tr).
  { rewrite (tf_nongt _ _ _ _ _ _ _ _ T).
    destruct (init_ok _ _ _ _ _ _ Hinit) as (_ & _ & ->). cbn [nongt_dim].
    destruct Hvalid as (_ & ? & ? & _). lia. }
  pose proof (sum_exp_pos (tr_nongt_dim tr)
                (fun z => tget (tr_weighted_aff tr) [b; i; h; z]) Hn) as Hpos.
  split; [|split].
  - intros j Hj. rewrite Vsm by assumption.
    apply Rlt_le, Rdiv_lt_0_compat; [apply exp_pos | exact Hpos].
  - rewrite (sum_n_ext _ _ _ (fun j Hj => Vsm j Hb Hi Hh Hj)).
    rewrite sum_n_div. field. lra.
  - intros j Hj. now apply Vsm.
Qed.

Lemma softmax_rows_normalised_witness :
  exists tr,
    forward_trace (unit_layer 2 (-1)) two_regions (Some adj_half) None (Some bias_zero)
    = Ok tr /\
    sum_n (tr_nongt_dim tr) (fun j => tget (tr_aff_softmax tr) [0; 1; 0; j]) = 1%R.
Proof.
  destruct (softmax_rows_normalised 1 2 (-1) 1 theta_unit (unit_layer 2 (-1)) 1 2
              two_regions (Some adj_half) None (Some bias_zero) (unit_layer_init 2 (-1)))
    as (tr & E & Hrows).
  - unfold valid_inputs. cbn. repeat split; try lia.
    exists bias_zero. split; reflexivity.
  - exists tr. split; [exact E|].
    apply (Hrows 0 1 0); cbn; lia.
Defined.

(** C5. When a position embedding is supplied and [pos_emb_dim > 0], the
    positional projection of output width [num_heads] is applied, then the
    rectified-linear activation, the result is clamped from below at 1e-6,
    its natural logarithm is taken and added to the content score; the
    call succeeds whatever the projected values are, and a value that is
    zero or negative before the logarithm contributes [ln 1e-6]. *)
Theorem position_gate F n0 P H theta L B N x adj p lb :
  init F n0 P H theta = Ok L ->
  (0 < P)%Z ->
  valid_inputs F n0 P B N x adj (Some p) lb ->
  exists m tr,
    pair_pos_fc1 L = Some m /\ out_features m = num_heads L /\
    forward_trace L x adj (Some p) lb = Ok tr /\
    forall b i h j, b < B -> i < N -> h < num_heads L -> j < Nat.min (nongt_dim L) N ->
      let v := fc_row m (row p [b; i; j] (Z.to_nat P)) h in
      tget (tr_weighted_aff tr) [b; i; h; j]
      = masked adj lb b i j
          (tget (tr_aff_scale tr) [b; i; h; j] + ln (Rmax (Rmax v 0) 1e-6))%R /\
      (1e-6 <= Rmax (Rmax v 0) 1e-6)%R /\
      ((v <= 0)%R -> ln (Rmax (Rmax v 0) 1e-6) = ln 1e-6).
Proof.
  intros Hinit HP Hvalid.
  destruct (forward_trace_spec _ _ _ _ _ _ _ _ _ _ _ _ Hinit Hvalid) as (tr & E & T).
  destruct (init_ok _ _ _ _ _ _ Hinit) as (HH & _ & HL).
  assert (Hpp : pair_pos_fc1 L = Some (mkFCNet (Z.to_nat P) H (pos_fn theta))).
  { subst L. cbn [pair_pos_fc1]. apply Z.ltb_lt in HP. now rewrite HP. }
  eexists. exists tr. split; [exact Hpp|].
  split; [now subst L|]. split; [exact E|].
  intros b i h j Hb Hi Hh Hj v. split; [|split].
  - rewrite <- (tf_nongt _ _ _ _ _ _ _ _ T) in Hj.
    rewrite (tf_w _ _ _ _ _ _ _ _ T) by assumption.
    unfold position_term. now rewrite Hpp.
  - apply Rmax_r.
  - intro Hv. f_equal. rewrite (Rmax_right v 0) by exact Hv.
    apply Rmax_right. lra.
Qed.

Lemma position_gate_witness :
  exists tr,
    forward_trace (unit_layer 2 1) two_regions None (Some pos_two) None = Ok tr /\
    tget (tr_weighted_aff tr) [0; 1; 0; 0]
    = (tget (tr_aff_scale tr) [0; 1; 0; 0]%nat + ln 1e-6)%R.
Proof.
  destruct (position_gate 1 2 1 1 theta_unit (unit_layer 2 1) 1 2 two_regions
              None pos_two None (unit_layer_init 2 1))
    as (m & tr & Hm & _ & E & Hgate).
  - lia.
  - unfold valid_inputs. cbn. repeat split; lia.
  - exists tr. split; [exact E|].
    injection Hm as <-.
    destruct (Hgate 0 1 0 0) as (Hw & _ & Hclamp).
    + lia.
    + lia.
    + cbn. lia.
    + cbn. lia.
    + rewrite Hw. cbn [masked]. f_equal. apply Hclamp.
      change (Z.to_nat 1) with 1. unfold pos_two, tget. cbn. lra.
Defined.

Lemma position_term_same L pe pe' b i h j n :
  same_entries (query_rows b i n) pe pe' -> j < n ->
  position_term L pe' b i h j = position_term L pe b i h j.
Proof.
  intros Hsame Hj. unfold position_term.
  destruct pe as [p|], pe' as [p'|]; cbn [same_entries] in Hsame;
    try contradiction; [|reflexivity].
  destruct (pair_pos_fc1 L) as [m|]; [|reflexivity].
  replace (row p' [b; i; j] (in_features m)) with (row p [b; i; j] (in_features m));
    [reflexivity|].
  apply row_ext. intros c Hc. cbn [app]. symmetry. apply Hsame. now exists j, c.
Qed.

Lemma masked_same adj adj' lb lb' b i j n s :
  same_entries (query_entries b i n) adj adj' ->
  same_entries (query_entries b i n) lb lb' -> j < n ->
  masked adj' lb' b i j s = masked adj lb b i j s.
Proof.
  intros Ha Hl Hj. unfold masked.
  destruct adj as [a|], adj' as [a'|]; cbn [same_entries] in Ha;
    try contradiction; [|reflexivity].
  destruct lb as [l|], lb' as [l'|]; cbn [same_entries] in Hl;
    try contradiction; [|reflexivity].
  rewrite (Ha [b; i; j]), (Hl [b; i; j]) by (now exists j). reflexivity.
Qed.

(** C9. Output row (b, i) depends only on feature row (b, i), on the
    feature rows (b, 0 .. effectiveNongt - 1) and on the adjacency, bias
    and position entries of query (b, i): a second valid call that agrees
    with the first on those (in particular one whose features differ only
    in rows (b, j) with j >= effectiveNongt and j <> i) produces the same
    output row (b, i). *)
Theorem output_row_locality F n0 P H theta L B N x x' adj adj' pe pe' lb lb' b i :
  init F n0 P H theta = Ok L ->
  valid_inputs F n0 P B N x adj pe lb ->
  valid_inputs F n0 P B N x' adj' pe' lb' ->
  b < B -> i < N ->
  (forall j c, j < N -> c < F -> j < Nat.min n0 N \/ j = i ->
     tget x' [b; j; c] = tget x [b; j; c]) ->
  same_entries (query_entries b i (Nat.min n0 N)) adj adj' ->
  same_entries (query_entries b i (Nat.min n0 N)) lb lb' ->
  same_entries (query_rows b i (Nat.min n0 N)) pe pe' ->
  exists out out',
    forward L x adj pe lb = Ok out /\ forward L x' adj' pe' lb' = Ok out' /\
    forall o, o < F -> tget out [b; i; o] = tget out' [b; i; o].
Proof.
  intros Hinit Hvalid Hvalid' Hb Hi Hagree Hadj Hlb Hpe.
  destruct (forward_trace_spec _ _ _ _ _ _ _ _ _ _ _ _ Hinit Hvalid) as (tr & E & T).
  destruct (forward_trace_spec _ _ _ _ _ _ _ _ _ _ _ _ Hinit Hvalid') as (tr' & E' & T').
  exists (tr_output tr), (tr_output tr'). unfold forward. rewrite E, E'. cbn [bind].
  split; [reflexivity|]. split; [reflexivity|].
  destruct Hvalid as (HB & HN & Hn0 & HF & Hx & _).
  destruct (init_ok _ _ _ _ _ _ Hinit) as (HH & Hmod & HL).
  destruct T as [Tn _ Tv _ Tsc _ Tw _ Tsm _ Tot _ _ Tout].
  destruct T' as [Tn' _ Tv' _ Tsc' _ Tw' _ Tsm' _ Tot' _ _ Tout'].
  rewrite Tn in *. rewrite Tn' in *.
  set (n := Nat.min n0 N) in *.
  assert (Hpos : forall h j, j < n ->
            position_term L pe' b i h j = position_term L pe b i h j)
    by (intros; now apply position_term_same with (n := n)).
  subst L.
  cbn [nongt_dim feat_dim num_heads dim dim_group linear_out_ query key fc_row
       item1 item2 fst snd weight bias] in *.
  fold n in Tv, Tsc, Tw, Tsm, Tot, Tv', Tsc', Tw', Tsm', Tot'.
  set (dg := F / H) in *.
  assert (HFdg : F = dg * H) by (rewrite Nat.mul_comm; now apply Nat.Div0.div_exact).
  assert (Hrow_i : row x' [b; i] F = row x [b; i] F).
  { apply row_ext. intros c Hc. cbn [app]. apply Hagree; auto. }
  assert (Hrow_j : forall j, j < n -> row x' [b; j] F = row x [b; j] F).
  { intros j Hj. apply row_ext. intros c Hc. cbn [app]. apply Hagree; auto; lia. }
  assert (Hw : forall h j, h < H -> j < n ->
            tget (tr_weighted_aff tr') [b; i; h; j]
            = tget (tr_weighted_aff tr) [b; i; h; j]).
  { intros h j Hh Hj. rewrite Tw, Tw', Tsc, Tsc' by assumption.
    rewrite (masked_same adj adj' lb lb' b i j n) by assumption.
    rewrite Hpos by assumption.
    do 3 f_equal. apply sum_n_ext. intros c Hc.
    now rewrite Hrow_i, Hrow_j. }
  assert (Hsm : forall h j, h < H -> j < n ->
            tget (tr_aff_softmax tr') [b; i; h; j]
            = tget (tr_aff_softmax tr) [b; i; h; j]).
  { intros h j Hh Hj. rewrite Tsm, Tsm', Hw by assumption. f_equal.
    apply sum_n_ext. intros z Hz. now rewrite Hw. }
  intros o Ho. rewrite Tout, Tout' by assumption. f_equal.
  apply sum_n_ext. intros c Hc.
  assert (Hh : o / dg < H) by (apply Nat.Div0.div_lt_upper_bound; lia).
  f_equal. rewrite Tot, Tot' by assumption.
  apply sum_n_ext. intros j Hj.
  rewrite Hsm, Tv, Tv' by assumption. f_equal. symmetry. apply Hagree; auto; lia.
Qed.

Lemma output_row_locality_witness :
  exists out out',
    forward (unit_layer 1 (-1)) two_regions None None None = Ok out /\
    forward (unit_layer 1 (-1)) two_regions_alt None None None = Ok out' /\
    tget out [0; 0; 0] = tget out' [0; 0; 0].
Proof.
  destruct (output_row_locality 1 1 (-1) 1 theta_unit (unit_layer 1 (-1)) 1 2
              two_regions two_regions_alt None None None None None None 0 0
              (unit_layer_init 1 (-1)))
    as (out & out' & E & E' & Hrow).
  - unfold valid_inputs. cbn. repeat split; lia.
  - unfold valid_inputs. cbn. repeat split; lia.
  - lia.
  - lia.
  - intros j c Hj Hc [Hlt | ->].
    + cbn in Hlt. assert (j = 0) by lia. assert (c = 0) by lia. subst. reflexivity.
    + assert (c = 0) by lia. subst. reflexivity.
  - exact I.
  - exact I.
  - exact I.
  - exists out, out'. split; [exact E|]. split; [exact E'|]. apply Hrow. lia.
Defined.

(** C10. When the adjacency argument is [None], [forward] never reads
    [label_biases_att]: two calls that differ only in that argument
    (including passing [None]) return the same result, and a valid call
    that passes label biases without an adjacency matrix raises no error. *)
Theorem label_biases_unread_without_adjacency :
  (forall L x pe lb lb', forward L x None pe lb = forward L x None pe lb') /\
  (forall F n0 P H theta L B N x pe l,
     init F n0 P H theta = Ok L ->
     valid_inputs F n0 P B N x None pe None ->
     exists out, forward L x None pe (Some l) = Ok out).
Proof.
  split; [reflexivity|].
  intros F n0 P H theta L B N x pe l Hinit Hvalid.
  destruct (forward_trace_spec F n0 P H theta L B N x None pe (Some l) Hinit)
    as (tr & E & _); [exact Hvalid|].
  exists (tr_output tr). unfold forward. now rewrite E.
Qed.

Lemma label_biases_unread_without_adjacency_witness :
  exists out, forward (unit_layer 2 (-1)) two_regions None None (Some bias_large) = Ok out.
Proof.
  apply (proj2 label_biases_unread_without_adjacency 1 2 (-1)%Z 1 theta_unit
           (unit_layer 2 (-1)) 1 2 two_regions None bias_large (unit_layer_init 2 (-1))).
  unfold valid_inputs. cbn. repeat split; lia.
Defined.

(** ** Execution on the layer object *)

(** The masking stage is the mask followed by the bias addition. *)
Lemma mask_and_bias_split w adj lb :
  mask_and_bias w adj lb = (m <- mask_only w adj ;; add_biases m lb).
Proof.
  unfold mask_and_bias, mask_only, add_biases.
  destruct (transpose w 2 3) as [t1|e]; [cbn [bind] | reflexivity].
  destruct (size adj 0) as [s0|e]; [cbn [bind] | reflexivity].
  destruct (size adj 1) as [s1|e]; [cbn [bind] | reflexivity].
  destruct (size adj 2) as [s2|e]; [cbn [bind] | reflexivity].
  destruct (view adj _) as [t2|e]; [cbn [bind] | reflexivity].
  destruct (size_last t1) as [h|e]; [cbn [bind] | reflexivity].
  destruct (expand t2 _) as [t3|e]; [cbn [bind] | reflexivity].
  destruct (where_pos t3 t1 _) as [t4|e]; reflexivity.
Qed.

(** The mask itself needs the adjacency matrix only. *)
Lemma mask_only_ok w adj B N H n :
  shape w = [B; N; H; n] -> shape adj = [B; N; n] ->
  exists m, mask_only w adj = Ok m /\ shape m = [B; N; n; H].
Proof.
  intros Hw Ha. unfold mask_only.
  destruct (transpose_23 w _ _ _ _ Hw) as (t1 & -> & S1 & V1).
  cbn [bind]. unfold size. rewrite Ha. cbn [nth_error bind].
  destruct (view_trailing_one adj _ _ _ Ha) as (t2 & -> & S2 & V2).
  cbn [bind]. unfold size_last. rewrite S1. cbn [rev app bind].
  destruct (expand_heads t2 _ _ _ H S2) as (t3 & -> & S3 & V3).
  cbn [bind].
  assert (Sz : shape (scale sentinel (ones_like t1)) = [B; N; n; H]) by exact S1.
  destruct (where_pos_spec4 t3 t1 _ _ _ _ _ S3 S1 Sz) as (t4 & -> & S4 & V4).
  now exists t4.
Qed.

(** A call leaves the layer object as it found it and yields what
    [forward] yields, whether a tensor or an exception. *)
Lemma execute_forward x adj pe lb m :
  self (fst (execute x adj pe lb m)) = self m /\
  snd (execute x adj pe lb m) = forward (self m) x adj pe lb.
Proof.
  destruct m as [L done].
  unfold execute, forward, forward_trace, bindR, getself, ret, perform.
  cbn [self completed].
  destruct (content_scores L x) as [sc|e]; cbn [bind self completed fst snd];
    [|now split].
  destruct pe as [p|]; cbn [bind self completed fst snd];
    [destruct (0 <? pos_emb_dim L)%Z|];
    try (destruct (add_position L _ _ _ p) as [w1|e]);
    cbn [bind self completed fst snd]; try (now split);
    (destruct adj as [a|];
     [ rewrite mask_and_bias_split;
       match goal with
       | |- context [mask_only ?w a] => destruct (mask_only w a) as [m1|e]
       end;
       [ cbn [bind self completed fst snd];
         destruct (add_biases m1 lb) as [w2|e];
         [ cbn [bind self completed fst snd] | now split ]
       | now split ]
     | cbn [bind self completed fst snd] ];
     match goal with
     | |- context [aggregate L ?a ?b ?c ?d ?w] => destruct (aggregate L a b c d w)
     end;
     cbn [bind self completed fst snd tr_output]; now split).
Qed.

(** A feature tensor of another width stops the scoring stage. *)
Lemma content_scores_wrong_width F n0 P H theta L B N F' x :
  init F n0 P H theta = Ok L ->
  shape x = [B; N; F'] -> F' <> F ->
  content_scores L x = Raise RuntimeError.
Proof.
  intros Hinit Hx Hne.
  destruct (init_ok _ _ _ _ _ _ Hinit) as (_ & _ & HL).
  unfold content_scores, size, slice_dim1, apply_fc.
  rewrite Hx. cbn [nth_error bind rev app].
  replace (in_features (query L)) with F by (now subst L).
  replace (F' =? F) with false by (symmetry; now apply Nat.eqb_neq).
  reflexivity.
Qed.

Lemma execute_wrong_width F n0 P H theta L B N F' x adj pe lb done :
  init F n0 P H theta = Ok L ->
  shape x = [B; N; F'] -> F' <> F ->
  execute x adj pe lb (mkMachine L done) = (mkMachine L done, Raise RuntimeError).
Proof.
  intros Hinit Hx Hne. unfold execute, bindR, getself. cbn [self].
  now rewrite (content_scores_wrong_width _ _ _ _ _ _ _ _ _ _ Hinit Hx Hne).
Qed.

(** Missing label biases are met at line 148, when the scores, the
    positional term and the mask are there. *)
Lemma execute_missing_biases F n0 P H theta L B N x a pe l done :
  init F n0 P H theta = Ok L ->
  valid_inputs F n0 P B N x (Some a) pe (Some l) ->
  execute x (Some a) pe None (mkMachine L done)
  = (mkMachine L (done ++ Scoring
                    :: (if position_runs L pe then [Positional] else []) ++ [Masking]),
     Raise AttributeError).
Proof.
  intros Hinit (HB & HN & Hn0 & HF & Hx & (Sa & _) & Hpe).
  unfold execute, bindR, getself. cbn [self].
  destruct (content_scores_spec _ _ _ _ _ _ B N x Hinit Hx HF)
    as (sc & -> & EB & EN & En & Sv & Vv & Sw0 & Vw0).
  cbn [perform self completed]. rewrite EB, En.
  destruct (position_stage_spec _ _ _ _ _ _ B N _ (sc_aff_scale sc) pe
              Hinit Sw0 HB) as (w1 & E1 & Sw1 & _); [lia | exact Hpe |].
  unfold position_runs.
  destruct pe as [p|].
  - cbn [self]. destruct (0 <? pos_emb_dim L)%Z.
    + rewrite E1. cbn [perform self completed].
      destruct (mask_only_ok w1 a _ _ _ _ Sw1 Sa) as (m1 & -> & _).
      cbn [perform self completed add_biases bind].
      now rewrite <- !app_assoc.
    + unfold ret. injection E1 as ->.
      destruct (mask_only_ok w1 a _ _ _ _ Sw1 Sa) as (m1 & -> & _).
      cbn [perform self completed add_biases bind].
      now rewrite <- !app_assoc.
  - unfold ret. injection E1 as ->.
    destruct (mask_only_ok w1 a _ _ _ _ Sw1 Sa) as (m1 & -> & _).
    cbn [perform self completed add_biases bind].
    now rewrite <- !app_assoc.
Qed.

(** ** What [forward] does outside its declared preconditions *)

(** C2, counterexample.  A layer built with [pos_emb_dim = -1] is called
    with a position embedding: the call returns a tensor, it does not
    raise. *)
Lemma position_embedding_not_rejected :
  (pos_emb_dim (unit_layer 2 (-1)) <= 0)%Z /\
  (exists out,
     forward (unit_layer 2 (-1)) two_regions None (Some pos_two) None = Ok out /\
     shape out = [1; 2; 1]) /\
  ~ (exists e,
       forward (unit_layer 2 (-1)) two_regions None (Some pos_two) None = Raise e).
Proof.
  assert (Hok : exists out,
            forward (unit_layer 2 (-1)) two_regions None (Some pos_two) None = Ok out /\
            shape out = [1; 2; 1]).
  { destruct (forward_trace_spec 1 2 (-1) 1 theta_unit (unit_layer 2 (-1)) 1 2
                two_regions None (Some pos_two) None (unit_layer_init 2 (-1)))
      as (tr & E & T).
    - unfold valid_inputs. cbn. repeat split; lia.
    - exists (tr_output tr). unfold forward. rewrite E. split; [reflexivity|].
      apply (tf_output_shape _ _ _ _ _ _ _ _ T). }
  split; [cbn; lia|]. split; [exact Hok|].
  destruct Hok as (out & E & _). intros (e & E'). congruence.
Qed.

(** C2, amended.  With [pos_emb_dim <= 0] a position embedding passed to
    [forward] is ignored: the call returns what the same call without the
    embedding returns. *)
Theorem position_embedding_ignored L x adj p lb :
  (pos_emb_dim L <= 0)%Z ->
  forward L x adj (Some p) lb = forward L x adj None lb.
Proof.
  intro HP. unfold forward. now rewrite forward_ignores_position.
Qed.

Lemma position_embedding_ignored_witness :
  forward (unit_layer 2 (-1)) two_regions (Some adj_half) (Some pos_two) (Some bias_zero)
  = forward (unit_layer 2 (-1)) two_regions (Some adj_half) None (Some bias_zero).
Proof.
  apply (position_embedding_ignored (unit_layer 2 (-1)) two_regions (Some adj_half)
           pos_two (Some bias_zero)).
  cbn. lia.
Defined.




(** ** Rounding at the sentinel *)

Lemma Int_part_between z t : (IZR z <= t < IZR z + 1)%R -> Int_part t = z.
Proof. intros [H1 H2]. symmetry. apply Int_part_spec. lra. Qed.

Lemma Rabs_le_between x a : (Rabs x <= a)%R -> (- a <= x <= a)%R.
Proof. unfold Rabs. destruct (Rcase_abs x); lra. Qed.

Lemma rne_near z t :
  Z.even z = true -> (Rabs (t - IZR z) <= 1 / 2)%R -> rne t = z.
Proof.
  intros Hev Habs. apply Rabs_le_between in Habs. unfold rne.
  destruct (Rle_dec (IZR z) t) as [Hge|Hlt].
  - rewrite (Int_part_between z t) by lra.
    destruct (Rlt_dec (t - IZR z) (1 / 2)); [reflexivity|].
    destruct (Rlt_dec (1 / 2) (t - IZR z)); [lra|]. now rewrite Hev.
  - assert (Hf : Int_part t = (z - 1)%Z).
    { apply Int_part_between. rewrite minus_IZR. lra. }
    rewrite Hf, minus_IZR.
    destruct (Rlt_dec (t - (IZR z - 1)) (1 / 2)); [lra|].
    destruct (Rlt_dec (1 / 2) (t - (IZR z - 1))); [lia|].
    replace (Z.even (z - 1)) with false; [lia|].
    rewrite Z.even_sub, Hev. reflexivity.
Qed.

Lemma rne_strict z t : (Rabs (t - IZR z) < 1 / 2)%R -> rne t = z.
Proof.
  intros Habs. apply Rabs_def2 in Habs. unfold rne.
  destruct (Rle_dec (IZR z) t) as [Hge|Hlt].
  - rewrite (Int_part_between z t) by lra.
    destruct (Rlt_dec (t - IZR z) (1 / 2)); [reflexivity | lra].
  - assert (Hf : Int_part t = (z - 1)%Z).
    { apply Int_part_between. rewrite minus_IZR. lra. }
    rewrite Hf, minus_IZR.
    destruct (Rlt_dec (t - (IZR z - 1)) (1 / 2)); [lra|].
    destruct (Rlt_dec (1 / 2) (t - (IZR z - 1))); [lia | lra].
Qed.

Lemma ln_2_pos : (0 < ln 2)%R.
Proof. rewrite <- ln_1. apply ln_increasing; lra. Qed.

(** The binary exponent of a number between [2^k] and [2^(k+1)]. *)
Lemma exponent_between (k : nat) x :
  (2 ^ k <= Rabs x < 2 ^ (S k))%R ->
  Int_part (ln (Rabs x) / ln 2) = Z.of_nat k.
Proof.
  intros [Hlo Hhi]. pose proof ln_2_pos as H2.
  assert (Hk : (0 < 2 ^ k)%R) by (apply pow_lt; lra).
  apply Int_part_between. rewrite <- INR_IZR_INZ. split.
  - apply Rmult_le_reg_r with (ln 2); [exact H2|].
    unfold Rdiv. rewrite Rmult_assoc, Rinv_l, Rmult_1_r by lra.
    rewrite <- ln_pow by lra.
    destruct Hlo as [Hlo | Hlo]; [left; apply ln_increasing; lra | right; now rewrite Hlo].
  - apply Rmult_lt_reg_r with (ln 2); [exact H2|].
    unfold Rdiv. rewrite Rmult_assoc, Rinv_l, Rmult_1_r by lra.
    replace ((INR k + 1) * ln 2)%R with (INR (S k) * ln 2)%R by (rewrite S_INR; ring).
    rewrite <- ln_pow by lra. apply ln_increasing; lra.
Qed.

(** On the binade of the sentinel binary32 rounds to multiples of [2^29]. *)
Lemma binary32_sentinel_binade x :
  (2 ^ 52 <= Rabs x < 2 ^ 53)%R ->
  binary32 x = (IZR (rne (x / 2 ^ 29)) * 2 ^ 29)%R.
Proof.
  intro Hx. unfold binary32, float_round.
  destruct (Req_dec_T x 0) as [->|_].
  - rewrite Rabs_R0 in Hx. lra.
  - rewrite (exponent_between 52 x Hx).
    change (Z.of_nat 52 - (24 - 1))%Z with 29%Z.
    change (powerRZ 2 29) with (2 ^ 29)%R. reflexivity.
Qed.

Lemma pow2_28 : (2 ^ 28 = 268435456)%R.
Proof. rewrite pow_IZR. reflexivity. Qed.

Lemma pow2_29 : (2 ^ 29 = 536870912)%R.
Proof. rewrite pow_IZR. reflexivity. Qed.

Lemma pow2_52 : (2 ^ 52 = 4503599627370496)%R.
Proof. rewrite pow_IZR. reflexivity. Qed.

Lemma pow2_53 : (2 ^ 53 = 9007199254740992)%R.
Proof. rewrite pow_IZR. reflexivity. Qed.

(** The binary32 value of the sentinel of line 136. *)
Lemma binary32_sentinel : binary32 sentinel = (-8999999815811072)%R.
Proof.
  rewrite binary32_sentinel_binade.
  - rewrite (rne_strict (-16763806)); [rewrite pow2_29; lra|].
    unfold sentinel. rewrite pow2_29. apply Rabs_def1; lra.
  - unfold sentinel. rewrite Rabs_left by lra. rewrite pow2_52, pow2_53. lra.
Qed.

(** Added to the sentinel, a bias of magnitude at most [2^28] is absorbed
    by the rounding. *)
Lemma binary32_absorbs v :
  (Rabs v <= 2 ^ 28)%R ->
  binary32 (binary32 sentinel + v) = binary32 sentinel.
Proof.
  intro Hv. rewrite binary32_sentinel. apply Rabs_le_between in Hv.
  rewrite pow2_28 in Hv.
  rewrite binary32_sentinel_binade.
  - rewrite (rne_near (-16763806)); [rewrite pow2_29; lra | reflexivity |].
    rewrite pow2_29. apply Rabs_le. lra.
  - rewrite Rabs_left by lra. rewrite pow2_52, pow2_53. lra.
Qed.

(** With the bias 9e15 the sum at a masked position is the rounding error
    of the sentinel, a binary32 number. *)
Lemma binary32_sentinel_cancelled :
  binary32 (binary32 sentinel + 9e15) = 184188928%R.
Proof.
  rewrite binary32_sentinel.
  replace (-8999999815811072 + 9e15)%R with 184188928%R by lra.
  unfold binary32, float_round.
  destruct (Req_dec_T 184188928 0) as [Hc|_]; [exfalso; lra|].
  rewrite (exponent_between 27).
  - change (Z.of_nat 27 - (24 - 1))%Z with 4%Z.
    change (powerRZ 2 4) with (2 ^ 4)%R.
    rewrite (rne_strict 11511808); [lra|].
    apply Rabs_def1; lra.
  - rewrite Rabs_right by lra. split; [|apply Rlt_le_trans with (2 ^ 28)%R].
    + apply Rle_trans with (2 ^ 28 / 2)%R; [simpl; lra | rewrite pow2_28; lra].
    + rewrite pow2_28. lra.
    + lra.
Qed.

Lemma binary32_zero : binary32 0 = 0%R.
Proof.
  unfold binary32, float_round.
  destruct (Req_dec_T 0 0) as [_|Hc]; [reflexivity | contradiction].
Qed.

(** ** The rounded masking stage *)

Lemma broadcast2_heads g x y a b c d :
  shape x = [a; b; c; d] -> shape y = [a; b; c; 1] ->
  exists t', broadcast2 g x y = Ok t' /\ shape t' = [a; b; c; d] /\
    forall i j k l, i < a -> j < b -> k < c -> l < d ->
      tget t' [i; j; k; l] = g (tget x [i; j; k; l]) (tget y [i; j; k; 0]%nat).
Proof.
  intros Hx Hy. unfold broadcast2. rewrite Hx, Hy.
  unfold broadcast_shapes. cbn [rev app bshape_rev].
  rewrite !bdim_same, bdim_one_r. cbn [option_map rev app].
  eexists. split; [reflexivity|]. split; [reflexivity|].
  intros. tab. rewrite bidx_same4 by assumption.
  cbn [bidx length skipn Nat.sub combine map fst snd Nat.eqb].
  now rewrite !bsel by assumption.
Qed.

Lemma mask_and_bias_rnd_spec rnd w adj l B N H n :
  shape w = [B; N; H; n] -> shape adj = [B; N; n] -> shape l = [B; N; n] ->
  exists w', mask_and_bias_rnd rnd w adj (Some l) = Ok w' /\ shape w' = [B; N; H; n] /\
    forall b i h j, b < B -> i < N -> h < H -> j < n ->
      tget w' [b; i; h; j] = masked_rnd rnd adj l b i j (tget w [b; i; h; j]).
Proof.
  intros Hw Ha Hl. unfold mask_and_bias_rnd.
  destruct (transpose_23 w _ _ _ _ Hw) as (t1 & -> & S1 & V1).
  cbn [bind]. unfold size. rewrite Ha. cbn [nth_error bind].
  destruct (view_trailing_one adj _ _ _ Ha) as (t2 & -> & S2 & V2).
  cbn [bind]. unfold size_last. rewrite S1. cbn [rev app bind].
  destruct (expand_heads t2 _ _ _ H S2) as (t3 & -> & S3 & V3).
  cbn [bind].
  assert (Sz : shape (scale_rnd rnd sentinel (ones_like t1)) = [B; N; n; H]) by exact S1.
  destruct (where_pos_spec4 t3 t1 _ _ _ _ _ S3 S1 Sz) as (t4 & -> & S4 & V4).
  cbn [bind].
  destruct (unsqueeze_3 l _ _ _ Hl) as (t5 & -> & S5 & V5).
  cbn [bind]. unfold tadd_rnd.
  destruct (broadcast2_heads (fun u v => rnd (u + v)%R) t4 t5 _ _ _ _ S4 S5)
    as (t6 & -> & S6 & V6).
  cbn [bind].
  destruct (transpose_23 t6 _ _ _ _ S6) as (t7 & -> & S7 & V7).
  exists t7. split; [reflexivity|]. split; [exact S7|].
  intros b i h j Hb Hi Hh Hj. unfold masked_rnd.
  rewrite V7, V6, V5, V4, V3, V2, V1 by assumption.
  do 2 f_equal. destruct (Rlt_dec 0 (tget adj [b; i; j])); [reflexivity|].
  unfold scale_rnd, ones_like.
  rewrite tmap_spec by (cbn [shape tmap tabulate]; rewrite S1; range).
  rewrite tmap_spec by (rewrite S1; range).
  now rewrite Rmult_1_r.
Qed.

(** Without rounding the model is [forward_trace]. *)
Lemma forward_trace_rnd_exact L x adj pe lb :
  forward_trace_rnd (fun v => v) L x adj pe lb = forward_trace L x adj pe lb.
Proof. reflexivity. Qed.

(** The whole call, with rounding, on valid inputs with an adjacency matrix. *)
Lemma forward_trace_rnd_spec rnd F n0 P H theta L B N x a pe l :
  init F n0 P H theta = Ok L ->
  valid_inputs F n0 P B N x (Some a) pe (Some l) ->
  exists tr, forward_trace_rnd rnd L x (Some a) pe (Some l) = Ok tr /\
    tr_nongt_dim tr = Nat.min n0 N /\
    (forall b j c, b < B -> j < Nat.min n0 N -> c < F ->
       tget (tr_v_data tr) [b; j; c] = tget x [b; j; c]) /\
    (forall b i h j, b < B -> i < N -> h < H -> j < Nat.min n0 N ->
       tget (tr_weighted_aff tr) [b; i; h; j]
       = masked_rnd rnd a l b i j
           (tget (tr_aff_scale tr) [b; i; h; j] + position_term L pe b i h j)%R) /\
    (forall b i h j, b < B -> i < N -> h < H -> j < Nat.min n0 N ->
       tget (tr_aff_softmax tr) [b; i; h; j]
       = (exp (tget (tr_weighted_aff tr) [b; i; h; j])
          / sum_n (Nat.min n0 N) (fun z =>
              exp (tget (tr_weighted_aff tr) [b; i; h; z])))%R) /\
    (forall b i h c, b < B -> i < N -> h < H -> c < F ->
       tget (tr_output_t tr) [b; i * H + h; c]
       = sum_n (Nat.min n0 N) (fun j =>
           (tget (tr_aff_softmax tr) [b; i; h; j] * tget (tr_v_data tr) [b; j; c])%R)) /\
    (forall b i o, b < B -> i < N -> o < F ->
       tget (tr_output tr) [b; i; o]
       = (out_bias theta o
          + sum_n F (fun c =>
              out_weight theta o c
              * tget (tr_output_t tr) [b; (i * H + o / (F / H))%nat; c]))%R) /\
    (forall b i h j, b < B -> i < N -> h < H -> j < Nat.min n0 N ->
       tget (tr_aff_scale tr) [b; i; h; j]
       = (1 / sqrt (INR (F / H))
          * sum_n (F / H) (fun c =>
              query_fn theta (row x [b; i] F) (h * (F / H) + c)%nat
              * key_fn theta (row x [b; j] F) (h * (F / H) + c)%nat))%R).
Proof.
  intros Hinit (HB & HN & Hn0 & HF & Hx & (Sa & l' & El & Sl) & Hpe).
  injection El as <-.
  set (n := Nat.min n0 N) in *.
  assert (Hn : 0 < n) by lia.
  unfold forward_trace_rnd.
  destruct (content_scores_spec _ _ _ _ _ _ B N x Hinit Hx HF)
    as (sc & -> & EB & EN & En & Sv & Vv & Sw0 & Vw0).
  cbn [bind]. rewrite EB, EN, En. fold n in Sv, Vv, Sw0, Vw0 |- *.
  destruct (position_stage_spec _ _ _ _ _ _ B N n (sc_aff_scale sc) pe
              Hinit Sw0 HB Hn Hpe) as (w1 & E1 & Sw1 & Vw1).
  rewrite E1. clear E1. cbn [bind].
  destruct (mask_and_bias_rnd_spec rnd w1 a l B N H n Sw1 Sa Sl)
    as (w2 & -> & Sw2 & Vw2).
  cbn [bind].
  destruct (aggregate_spec _ _ _ _ _ _ B N n (sc_v_data sc) w2 Hinit Sw2 Sv HB Hn HF)
    as (mx & -> & Ssm & Vsm & Sot & Vot & Sout & Wout & Vout).
  cbn [bind].
  eexists. split; [reflexivity|].
  cbn [tr_nongt_dim tr_v_data tr_aff_scale tr_weighted_aff tr_aff_softmax
       tr_output_t tr_output].
  repeat split; try assumption.
  intros b i h j Hb Hi Hh Hj. now rewrite Vw2, Vw1.
Qed.

(** Masking, then the rounded bias addition, for a format that absorbs
    every bias of magnitude at most [beta] at the sentinel. *)
Lemma masked_scores_rnd rnd beta F n0 P H theta L B N x a pe l :
  (forall v, (Rabs v <= beta)%R -> rnd (rnd sentinel + v)%R = rnd sentinel) ->
  init F n0 P H theta = Ok L ->
  valid_inputs F n0 P B N x (Some a) pe (Some l) ->
  exists tr, forward_trace_rnd rnd L x (Some a) pe (Some l) = Ok tr /\
    forall b i h j, b < B -> i < N -> h < num_heads L -> j < Nat.min (nongt_dim L) N ->
      ((0 < tget a [b; i; j])%R ->
         tget (tr_weighted_aff tr) [b; i; h; j]
         = rnd (tget (tr_aff_scale tr) [b; i; h; j] + position_term L pe b i h j
                + tget l [b; i; j])%R) /\
      ((tget a [b; i; j] <= 0)%R ->
         tget (tr_weighted_aff tr) [b; i; h; j] = rnd (rnd sentinel + tget l [b; i; j])%R /\
         ((Rabs (tget l [b; i; j]) <= beta)%R ->
            tget (tr_weighted_aff tr) [b; i; h; j] = rnd sentinel /\
            forall k, k < Nat.min (nongt_dim L) N ->
              (tget (tr_aff_softmax tr) [b; i; h; j]
               <= exp (rnd sentinel - tget (tr_weighted_aff tr) [b; i; h; k]))%R)).
Proof.
  intros Habsorb Hinit Hvalid.
  destruct (forward_trace_rnd_spec rnd _ _ _ _ _ _ _ _ _ _ _ _ Hinit Hvalid)
    as (tr & E & Tn & _ & Tw & Tsm & _).
  exists tr. split; [exact E|].
  destruct (init_ok _ _ _ _ _ _ Hinit) as (_ & _ & HL).
  replace (num_heads L) with H by (now subst L).
  replace (nongt_dim L) with n0 by (now subst L).
  intros b i h j Hb Hi Hh Hj.
  pose proof (Tw b i h j Hb Hi Hh Hj) as Hw. unfold masked_rnd in Hw.
  split.
  - intro Hedge. rewrite Hw.
    destruct (Rlt_dec 0 (tget a [b; i; j])) as [_|Hc]; [reflexivity | contradiction].
  - intro Hmask.
    assert (Hwj : tget (tr_weighted_aff tr) [b; i; h; j]
                  = rnd (rnd sentinel + tget l [b; i; j])%R).
    { rewrite Hw.
      destruct (Rlt_dec 0 (tget a [b; i; j])) as [Hc|_]; [exfalso; lra | reflexivity]. }
    split; [exact Hwj|].
    intro Hsmall.
    assert (Hws : tget (tr_weighted_aff tr) [b; i; h; j] = rnd sentinel)
      by (rewrite Hwj; now apply Habsorb).
    split; [exact Hws|].
    intros k Hk.
    rewrite Tsm, Hws by assumption.
    set (c := rnd sentinel).
    set (g := fun z => exp (tget (tr_weighted_aff tr) [b; i; h; z])).
    assert (Hge : (g k <= sum_n (Nat.min n0 N) g)%R).
    { apply sum_n_ge_term; [|exact Hk]. intros z _. apply Rlt_le, exp_pos. }
    assert (Hgk : (0 < g k)%R) by apply exp_pos.
    replace (exp (c - tget (tr_weighted_aff tr) [b; i; h; k])) with (exp c * / g k)%R
      by (unfold Rminus, g; now rewrite exp_plus, exp_Ropp).
    pose proof (exp_pos c) as He.
    unfold Rdiv. apply Rmult_le_compat_l; [lra|].
    apply Rinv_le_contravar; assumption.
Qed.

(** A row without edges, for such a format and biases within [beta]. *)
Lemma masked_row_rnd rnd beta F n0 P H theta L B N x a pe l b i :
  (forall v, (Rabs v <= beta)%R -> rnd (rnd sentinel + v)%R = rnd sentinel) ->
  init F n0 P H theta = Ok L ->
  valid_inputs F n0 P B N x (Some a) pe (Some l) ->
  b < B -> i < N ->
  (forall j, j < Nat.min n0 N -> (tget a [b; i; j] <= 0)%R) ->
  (forall j, j < Nat.min n0 N -> (Rabs (tget l [b; i; j]) <= beta)%R) ->
  exists tr, forward_trace_rnd rnd L x (Some a) pe (Some l) = Ok tr /\
    (forall h j, h < H -> j < Nat.min n0 N ->
       tget (tr_weighted_aff tr) [b; i; h; j] = rnd sentinel) /\
    (forall h j, h < H -> j < Nat.min n0 N ->
       tget (tr_aff_softmax tr) [b; i; h; j] = (1 / INR (Nat.min n0 N))%R) /\
    (forall h c, h < H -> c < F ->
       tget (tr_output_t tr) [b; i * H + h; c]
       = (sum_n (Nat.min n0 N) (fun j => tget x [b; j; c]) / INR (Nat.min n0 N))%R) /\
    (forall o, o < F ->
       tget (tr_output tr) [b; i; o]
       = (out_bias theta o
          + sum_n F (fun c =>
              out_weight theta o c
              * (sum_n (Nat.min n0 N) (fun j => tget x [b; j; c])
                 / INR (Nat.min n0 N))))%R).
Proof.
  intros Habsorb Hinit Hvalid Hb Hi Hmask Hsmall.
  destruct (forward_trace_rnd_spec rnd _ _ _ _ _ _ _ _ _ _ _ _ Hinit Hvalid)
    as (tr & E & Tn & Tv & Tw & Tsm & Tot & Tout & _).
  exists tr. split; [exact E|].
  destruct Hvalid as (HB & HN & Hn0 & HF & Hx & _).
  destruct (init_ok _ _ _ _ _ _ Hinit) as (HH & Hmod & HL).
  set (n := Nat.min n0 N) in *.
  assert (Hn : 0 < n) by lia.
  assert (HnR : (0 < INR n)%R) by (now apply lt_0_INR).
  assert (Hw : forall h j, h < H -> j < n ->
            tget (tr_weighted_aff tr) [b; i; h; j] = rnd sentinel).
  { intros h j Hh Hj. rewrite Tw by assumption. unfold masked_rnd.
    destruct (Rlt_dec 0 (tget a [b; i; j])) as [Hc|_].
    - specialize (Hmask j Hj). exfalso. lra.
    - apply Habsorb. now apply Hsmall. }
  split; [exact Hw|].
  assert (Huni : forall h j, h < H -> j < n ->
            tget (tr_aff_softmax tr) [b; i; h; j] = (1 / INR n)%R).
  { intros h j Hh Hj. rewrite Tsm, Hw by assumption.
    rewrite (sum_n_ext n _ (fun _ => exp (rnd sentinel)))
      by (intros z Hz; now rewrite Hw).
    rewrite sum_n_const.
    pose proof (exp_pos (rnd sentinel)). field. split; lra. }
  assert (Hmean : forall h c, h < H -> c < F ->
            tget (tr_output_t tr) [b; i * H + h; c]
            = (sum_n n (fun j => tget x [b; j; c]) / INR n)%R).
  { intros h c Hh Hc. rewrite Tot by assumption.
    rewrite (sum_n_ext n _ (fun j => 1 / INR n * tget x [b; j; c])%R)
      by (intros j Hj; now rewrite Huni, Tv).
    rewrite sum_n_scal. field. lra. }
  split; [exact Huni|]. split; [exact Hmean|].
  intros o Ho. rewrite Tout by assumption. f_equal.
  apply sum_n_ext. intros c Hc. f_equal. apply Hmean; [|exact Hc].
  apply Nat.Div0.div_lt_upper_bound.
  replace (F / H * H) with F; [exact Ho|].
  rewrite Nat.mul_comm. now apply Nat.Div0.div_exact.
Qed.

(** The two counterexample inputs in binary32.  With the bias 9e15 on the
    masked pair (region 0, neighbour 1) the masked score is 184188928,
    above the score 0 of the unmasked neighbour, and the masked neighbour
    has more than half of the weight; with an all-zero adjacency matrix
    the two scores of the row differ and so do the weights. *)
Lemma large_bias_binary32 :
  (exists tr,
     forward_trace_rnd binary32 (unit_layer 2 (-1)) two_regions (Some adj_half) None
       (Some bias_large) = Ok tr /\
     tget (tr_weighted_aff tr) [0; 0; 0; 0] = 0%R /\
     tget (tr_weighted_aff tr) [0; 0; 0; 1] = 184188928%R /\
     (1 / 2 < tget (tr_aff_softmax tr) [0; 0; 0; 1]%nat)%R) /\
  (exists tr,
     forward_trace_rnd binary32 (unit_layer 2 (-1)) two_regions (Some adj_none) None
       (Some bias_large) = Ok tr /\
     tget (tr_weighted_aff tr) [0; 0; 0; 0] = (-8999999815811072)%R /\
     tget (tr_weighted_aff tr) [0; 0; 0; 1] = 184188928%R /\
     (tget (tr_aff_softmax tr) [0; 0; 0; 0]%nat
      < tget (tr_aff_softmax tr) [0; 0; 0; 1]%nat)%R).
Proof.
  assert (Hv : forall a, shape a = [1; 2; 2] ->
            valid_inputs 1 2 (-1) 1 2 two_regions (Some a) None (Some bias_large)).
  { intros a Sa. unfold valid_inputs. cbn. repeat split; try lia; try assumption.
    exists bias_large. split; reflexivity. }
  assert (Hinit : init 1 2 (-1) 1 theta_unit = Ok (unit_layer 2 (-1))) by reflexivity.
  split.
  - destruct (forward_trace_rnd_spec binary32 _ _ _ _ _ _ _ _ _ _ _ _ Hinit
                (Hv adj_half eq_refl)) as (tr & E & Tn & _ & Tw & Tsm & _ & _ & Tsc).
    exists tr. split; [exact E|].
    assert (W0 : tget (tr_weighted_aff tr) [0; 0; 0; 0] = 0%R).
    { rewrite Tw, Tsc by (cbn; lia). unfold masked_rnd.
      change (tget adj_half [0; 0; 0]) with 1%R.
      change (tget bias_large [0; 0; 0]) with 0%R.
      destruct (Rlt_dec 0 1) as [_|Hc]; [|exfalso; lra].
      cbn [position_term theta_unit query_fn key_fn]. unfold sum_n.
      cbn [Nat.div Nat.divmod fst snd seq map fold_right].
      transitivity (binary32 0); [f_equal; unfold Rdiv; ring | apply binary32_zero]. }
    assert (W1 : tget (tr_weighted_aff tr) [0; 0; 0; 1] = 184188928%R).
    { rewrite Tw by (cbn; lia). unfold masked_rnd.
      change (tget adj_half [0; 0; 1]) with 0%R.
      change (tget bias_large [0; 0; 1]) with 9e15%R.
      destruct (Rlt_dec 0 0) as [Hc|_]; [exfalso; lra|].
      exact binary32_sentinel_cancelled. }
    split; [exact W0|]. split; [exact W1|].
    rewrite Tsm by (cbn; lia).
    change (Nat.min 2 2) with 2. unfold sum_n. cbn [seq map fold_right].
    rewrite W0, W1, exp_0, Rplus_0_r.
    assert (He : (1 < exp 184188928)%R)
      by (rewrite <- exp_0; apply exp_increasing; lra).
    set (e := exp 184188928) in *.
    apply Rmult_lt_reg_r with (1 + e)%R; [lra|].
    replace (e / (1 + e) * (1 + e))%R with e by (field; lra). lra.
  - destruct (forward_trace_rnd_spec binary32 _ _ _ _ _ _ _ _ _ _ _ _ Hinit
                (Hv adj_none eq_refl)) as (tr & E & Tn & _ & Tw & Tsm & _ & _ & Tsc).
    exists tr. split; [exact E|].
    assert (W0 : tget (tr_weighted_aff tr) [0; 0; 0; 0] = (-8999999815811072)%R).
    { rewrite Tw by (cbn; lia). unfold masked_rnd.
      change (tget adj_none [0; 0; 0]) with 0%R.
      change (tget bias_large [0; 0; 0]) with 0%R.
      destruct (Rlt_dec 0 0) as [Hc|_]; [exfalso; lra|].
      rewrite binary32_absorbs; [exact binary32_sentinel|].
      rewrite Rabs_R0, pow2_28. lra. }
    assert (W1 : tget (tr_weighted_aff tr) [0; 0; 0; 1] = 184188928%R).
    { rewrite Tw by (cbn; lia). unfold masked_rnd.
      change (tget adj_none [0; 0; 1]) with 0%R.
      change (tget bias_large [0; 0; 1]) with 9e15%R.
      destruct (Rlt_dec 0 0) as [Hc|_]; [exfalso; lra|].
      exact binary32_sentinel_cancelled. }
    split; [exact W0|]. split; [exact W1|].
    rewrite !Tsm by (cbn; lia).
    change (Nat.min 2 2) with 2. unfold sum_n. cbn [seq map fold_right].
    rewrite W0, W1, Rplus_0_r.
    assert (He : (exp (-8999999815811072) < exp 184188928)%R)
      by (apply exp_increasing; lra).
    pose proof (exp_pos (-8999999815811072)) as Hp.
    unfold Rdiv. apply Rmult_lt_compat_r; [|exact He].
    apply Rinv_0_lt_compat. lra.
Qed.

(** ** Masking and label biases *)

Lemma unit_content_zero n0 P x adj pe lb B N tr :
  trace_facts (unit_layer n0 P) B N x adj pe lb tr ->
  forall b i j, b < B -> i < N -> j < tr_nongt_dim tr ->
    tget (tr_aff_scale tr) [b; i; 0; j] = 0%R.
Proof.
  intros T b i j Hb Hi Hj.
  rewrite (tf_scale _ _ _ _ _ _ _ _ T) by (try assumption; cbn; lia).
  cbn [unit_layer dim_group item1 fst snd query key fc_row theta_unit query_fn key_fn].
  unfold sum_n. cbn [seq map fold_right]. ring.
Qed.

Lemma sum_n_two f : sum_n 2 f = (f 0%nat + f 1%nat)%R.
Proof. unfold sum_n. cbn [seq map fold_right]. ring. Qed.

Lemma exp_sentinel_lt_1 : (exp sentinel < 1)%R.
Proof.
  rewrite <- exp_0. apply exp_increasing. unfold sentinel. lra.
Qed.

(** The scores of region 0 of [two_regions] under an adjacency matrix [a]
    and label biases [l], for the layer with zero content scores. *)
Lemma unit_scores a l tr :
  trace_facts (unit_layer 2 (-1)) 1 2 two_regions (Some a) None (Some l) tr ->
  tr_nongt_dim tr = 2 /\
  forall j, j < 2 ->
    tget (tr_weighted_aff tr) [0; 0; 0; j]
    = ((if Rlt_dec 0 (tget a [0; 0; j]%nat) then 0 else sentinel)
       + tget l [0; 0; j]%nat)%R.
Proof.
  intros T.
  assert (Hn : tr_nongt_dim tr = 2) by (rewrite (tf_nongt _ _ _ _ _ _ _ _ T); reflexivity).
  split; [exact Hn|]. intros j Hj.
  rewrite (tf_w _ _ _ _ _ _ _ _ T) by (rewrite ?Hn; cbn; lia).
  rewrite (unit_content_zero _ _ _ _ _ _ _ _ _ T) by (rewrite ?Hn; lia).
  cbn [masked position_term]. now rewrite (Rplus_0_r 0).
Qed.

Lemma unit_valid a l :
  shape a = [1; 2; 2] -> shape l = [1; 2; 2] ->
  valid_inputs 1 2 (-1) 1 2 two_regions (Some a) None (Some l).
Proof.
  intros Sa Sl. unfold valid_inputs. cbn. repeat split; try lia; try assumption.
  exists l. split; [reflexivity | assumption].
Qed.

(** C1, counterexample.  Region 0 has no edge to neighbour 1
    (adjacency 0).  With the label bias 9e15 on that pair the masked score
    is -9e15 + 9e15 = 0 and the softmax weight of the masked neighbour is
    1/2; and when no neighbour of the region has an edge, the weight of
    the masked neighbour is 1/2 even with all biases zero. *)
Lemma masked_edge_weight_not_small :
  (exists tr,
     forward_trace (unit_layer 2 (-1)) two_regions (Some adj_half) None (Some bias_large)
     = Ok tr /\
     (tget adj_half [0; 0; 1]%nat <= 0)%R /\
     tget (tr_weighted_aff tr) [0; 0; 0; 1] = 0%R /\
     tget (tr_aff_softmax tr) [0; 0; 0; 1] = (1 / 2)%R) /\
  (exists tr,
     forward_trace (unit_layer 2 (-1)) two_regions (Some adj_none) None (Some bias_zero)
     = Ok tr /\
     (tget adj_none [0; 0; 1]%nat <= 0)%R /\
     tget (tr_aff_softmax tr) [0; 0; 0; 1] = (1 / 2)%R).
Proof.
  split.
  - destruct (forward_trace_spec 1 2 (-1) 1 theta_unit (unit_layer 2 (-1)) 1 2
                two_regions (Some adj_half) None (Some bias_large)
                (unit_layer_init 2 (-1)) (unit_valid adj_half bias_large eq_refl eq_refl))
      as (tr & E & T).
    exists tr. split; [exact E|].
    destruct (unit_scores adj_half bias_large tr T) as (Hn & W).
    pose proof (W 0 (Nat.lt_0_succ 1)) as W0.
    pose proof (W 1 (Nat.lt_succ_diag_r 1)) as W1.
    change (tget adj_half [0; 0; 0]) with 1%R in W0.
    change (tget adj_half [0; 0; 1]) with 0%R in W1 |- *.
    change (tget bias_large [0; 0; 0]) with 0%R in W0.
    change (tget bias_large [0; 0; 1]) with 9e15%R in W1.
    destruct (Rlt_dec 0 1) as [_|Hc]; [|exfalso; lra].
    destruct (Rlt_dec 0 0) as [Hc|_]; [exfalso; lra|].
    assert (W1' : tget (tr_weighted_aff tr) [0; 0; 0; 1] = 0%R)
      by (rewrite W1; unfold sentinel; lra).
    assert (W0' : tget (tr_weighted_aff tr) [0; 0; 0; 0] = 0%R)
      by (rewrite W0; lra).
    split; [lra|]. split; [exact W1'|].
    rewrite (tf_softmax _ _ _ _ _ _ _ _ T) by (rewrite ?Hn; cbn; lia).
    rewrite Hn, sum_n_two, W0', W1', exp_0. lra.
  - destruct (forward_trace_spec 1 2 (-1) 1 theta_unit (unit_layer 2 (-1)) 1 2
                two_regions (Some adj_none) None (Some bias_zero)
                (unit_layer_init 2 (-1)) (unit_valid adj_none bias_zero eq_refl eq_refl))
      as (tr & E & T).
    exists tr. split; [exact E|].
    destruct (unit_scores adj_none bias_zero tr T) as (Hn & W).
    pose proof (W 0 (Nat.lt_0_succ 1)) as W0.
    pose proof (W 1 (Nat.lt_succ_diag_r 1)) as W1.
    change (tget adj_none [0; 0; 0]) with 0%R in W0.
    change (tget adj_none [0; 0; 1]) with 0%R in W1 |- *.
    change (tget bias_zero [0; 0; 0]) with 0%R in W0.
    change (tget bias_zero [0; 0; 1]) with 0%R in W1.
    destruct (Rlt_dec 0 0) as [Hc|_]; [exfalso; lra|].
    rewrite Rplus_0_r in W0, W1.
    split; [lra|].
    rewrite (tf_softmax _ _ _ _ _ _ _ _ T) by (rewrite ?Hn; cbn; lia).
    rewrite Hn, sum_n_two, W0, W1.
    pose proof (exp_pos sentinel). field. lra.
Qed.

(** C1, amended.  With an adjacency matrix, the score of a pair with
    adjacency > 0 is kept and any other is replaced by the sentinel, the
    binary32 value of -9e15, and then the label bias (the same for every
    head) is added at every position, the sum being rounded to binary32:
    an unmasked position holds the rounded sum of its score and its bias,
    a masked one the rounded sum of the sentinel and its bias.  A bias of
    magnitude at most 2^28 has no effect on a masked position: its score is
    the sentinel, and the softmax weight of that neighbour is at most
    exp (sentinel - score_k) for every neighbour k of the same region and
    head, [score_k] being the final score of k; so it is at most
    exp (sentinel) when some neighbour of the row has a final score >= 0. *)
Theorem masking_then_bias F n0 P H theta L B N x a pe l :
  init F n0 P H theta = Ok L ->
  valid_inputs F n0 P B N x (Some a) pe (Some l) ->
  exists tr, forward_trace_rnd binary32 L x (Some a) pe (Some l) = Ok tr /\
    forall b i h j, b < B -> i < N -> h < num_heads L -> j < Nat.min (nongt_dim L) N ->
      ((0 < tget a [b; i; j])%R ->
         tget (tr_weighted_aff tr) [b; i; h; j]
         = binary32 (tget (tr_aff_scale tr) [b; i; h; j] + position_term L pe b i h j
                     + tget l [b; i; j])%R) /\
      ((tget a [b; i; j] <= 0)%R ->
         tget (tr_weighted_aff tr) [b; i; h; j]
         = binary32 (binary32 (-9e15) + tget l [b; i; j])%R /\
         ((Rabs (tget l [b; i; j]) <= 2 ^ 28)%R ->
            tget (tr_weighted_aff tr) [b; i; h; j] = binary32 (-9e15) /\
            (forall k, k < Nat.min (nongt_dim L) N ->
               (tget (tr_aff_softmax tr) [b; i; h; j]
                <= exp (binary32 (-9e15) - tget (tr_weighted_aff tr) [b; i; h; k]))%R) /\
            (forall k, k < Nat.min (nongt_dim L) N ->
               (0 <= tget (tr_weighted_aff tr) [b; i; h; k])%R ->
               (tget (tr_aff_softmax tr) [b; i; h; j] <= exp (binary32 (-9e15)))%R))).
Proof.
  intros Hinit Hvalid.
  destruct (masked_scores_rnd binary32 (2 ^ 28) _ _ _ _ _ _ _ _ _ _ _ _
              binary32_absorbs Hinit Hvalid) as (tr & E & Hscores).
  exists tr. split; [exact E|].
  intros b i h j Hb Hi Hh Hj.
  destruct (Hscores b i h j Hb Hi Hh Hj) as (Hkept & Hmasked).
  split; [exact Hkept|].
  intro Hmask. destruct (Hmasked Hmask) as (Hw & Habsorbed).
  split; [exact Hw|].
  intro Hsmall. destruct (Habsorbed Hsmall) as (Hws & Hbound).
  split; [exact Hws|]. split; [exact Hbound|].
  intros k Hk Hpos.
  apply Rle_trans with (1 := Hbound k Hk).
  change (binary32 (-9e15)) with (binary32 sentinel).
  destruct Hpos as [Hlt | Heq].
  - left. apply exp_increasing. lra.
  - right. f_equal. lra.
Qed.

Lemma masking_then_bias_witness :
  exists tr,
    forward_trace_rnd binary32 (unit_layer 2 (-1)) two_regions (Some adj_half) None
      (Some bias_small) = Ok tr /\
    tget bias_small [0; 0; 1]%nat = 1%R /\
    tget (tr_weighted_aff tr) [0; 0; 0; 1] = (-8999999815811072)%R.
Proof.
  destruct (masking_then_bias 1 2 (-1) 1 theta_unit (unit_layer 2 (-1))
              1 2 two_regions adj_half None bias_small
              (unit_layer_init 2 (-1))
              (unit_valid adj_half bias_small eq_refl eq_refl))
    as (tr & E & Hscore).
  exists tr. split; [exact E|]. split; [reflexivity|].
  destruct (Hscore 0 0 0 1) as (_ & Hmasked); try (cbn; lia).
  destruct Hmasked as (_ & Habsorbed).
  - unfold adj_half, tget. cbn. lra.
  - destruct Habsorbed as (Hw & _).
    + change (tget bias_small [0; 0; 1]) with 1%R.
      rewrite Rabs_R1, pow2_28. lra.
    + rewrite Hw. exact binary32_sentinel.
Defined.

(** C4, counterexample.  The adjacency matrix is all zero and the label
    biases of region 0 are 0 and 9e15: the scores of its two neighbours
    are -9e15 and 0, the softmax is not uniform, and the aggregated value
    (and the output, the mixing weight being 1) is not the mean 2 of the
    neighbour values 1 and 3. *)
Lemma all_zero_adjacency_not_uniform :
  exists tr,
    forward_trace (unit_layer 2 (-1)) two_regions (Some adj_none) None (Some bias_large)
    = Ok tr /\
    (forall i j, i < 2 -> j < 2 -> (tget adj_none [0; i; j]%nat <= 0)%R) /\
    (tget (tr_aff_softmax tr) [0; 0; 0; 0]%nat
     < tget (tr_aff_softmax tr) [0; 0; 0; 1]%nat)%R /\
    tget (tr_output_t tr) [0; 0; 0] <> ((1 + 3) / 2)%R /\
    tget (tr_output tr) [0; 0; 0] <> ((1 + 3) / 2)%R.
Proof.
  destruct (forward_trace_spec 1 2 (-1) 1 theta_unit (unit_layer 2 (-1)) 1 2
              two_regions (Some adj_none) None (Some bias_large)
              (unit_layer_init 2 (-1)) (unit_valid adj_none bias_large eq_refl eq_refl))
    as (tr & E & T).
  exists tr. split; [exact E|].
  destruct (unit_scores adj_none bias_large tr T) as (Hn & W).
  pose proof (W 0 (Nat.lt_0_succ 1)) as W0.
  pose proof (W 1 (Nat.lt_succ_diag_r 1)) as W1.
  change (tget adj_none [0; 0; 0]) with 0%R in W0.
  change (tget adj_none [0; 0; 1]) with 0%R in W1.
  change (tget bias_large [0; 0; 0]) with 0%R in W0.
  change (tget bias_large [0; 0; 1]) with 9e15%R in W1.
  destruct (Rlt_dec 0 0) as [Hc|_]; [exfalso; lra|].
  assert (W1' : tget (tr_weighted_aff tr) [0; 0; 0; 1] = 0%R)
    by (rewrite W1; unfold sentinel; lra).
  assert (W0' : tget (tr_weighted_aff tr) [0; 0; 0; 0] = sentinel)
    by (rewrite W0; lra).
  pose proof exp_sentinel_lt_1 as Hlt. pose proof (exp_pos sentinel) as Hpos.
  set (e := exp sentinel) in *.
  assert (S0 : tget (tr_aff_softmax tr) [0; 0; 0; 0] = (e / (e + 1))%R).
  { rewrite (tf_softmax _ _ _ _ _ _ _ _ T) by (rewrite ?Hn; cbn; lia).
    now rewrite Hn, sum_n_two, W0', W1', exp_0. }
  assert (S1 : tget (tr_aff_softmax tr) [0; 0; 0; 1] = (1 / (e + 1))%R).
  { rewrite (tf_softmax _ _ _ _ _ _ _ _ T) by (rewrite ?Hn; cbn; lia).
    now rewrite Hn, sum_n_two, W0', W1', exp_0. }
  assert (Hot : tget (tr_output_t tr) [0; 0; 0] = ((e + 3) / (e + 1))%R).
  { pose proof (tf_output_t _ _ _ _ _ _ _ _ T 0 0 0 0) as Hot.
    change (tget (tr_output_t tr) [0; 0 * num_heads (unit_layer 2 (-1)) + 0; 0])
      with (tget (tr_output_t tr) [0; 0; 0]) in Hot.
    rewrite Hot by (cbn; lia).
    rewrite Hn, sum_n_two, S0, S1.
    rewrite !(tf_v _ _ _ _ _ _ _ _ T) by (rewrite ?Hn; cbn; lia).
    change (tget two_regions [0; 0; 0]) with 1%R.
    change (tget two_regions [0; 1; 0]) with 3%R.
    field. lra. }
  assert (Hne : ((e + 3) / (e + 1) <> (1 + 3) / 2)%R).
  { intro Heq. apply (Rmult_eq_compat_r (e + 1)) in Heq.
    unfold Rdiv in Heq. rewrite Rmult_assoc, Rinv_l in Heq by lra. lra. }
  split; [|split; [|split]].
  - intros i j Hi Hj.
    destruct i as [|[|i]]; [| |lia]; (destruct j as [|[|j]]; [| |lia]);
      unfold adj_none, tget; cbn; lra.
  - rewrite S0, S1. unfold Rdiv. apply Rmult_lt_compat_r; [|exact Hlt].
    apply Rinv_0_lt_compat. lra.
  - now rewrite Hot.
  - pose proof (tf_output _ _ _ _ _ _ _ _ T 0 0 0) as Hout.
    rewrite Hout by (cbn; lia).
    cbn [unit_layer linear_out_ bias weight theta_unit out_bias out_weight feat_dim
         num_heads dim item2 fst snd Nat.div Nat.divmod Nat.mul Nat.add].
    unfold sum_n. cbn [seq map fold_right]. rewrite Hot.
    intro Heq. apply Hne. lra.
Qed.

(** C4, amended.  When every adjacency entry of a region's row is <= 0
    and every label bias of the row has magnitude at most 2^28, every score
    of the row is the same sentinel constant, the binary32 value of -9e15,
    whatever the content and positional scores; the softmax is uniform over
    the effectiveNongt neighbours, the aggregated row is the unweighted
    mean of the neighbour value rows, and the output row is the output
    mixing projection of that mean. *)
Theorem fully_masked_row F n0 P H theta L B N x a pe l b i :
  init F n0 P H theta = Ok L ->
  valid_inputs F n0 P B N x (Some a) pe (Some l) ->
  b < B -> i < N ->
  (forall j, j < Nat.min n0 N -> (tget a [b; i; j] <= 0)%R) ->
  (forall j, j < Nat.min n0 N -> (Rabs (tget l [b; i; j]) <= 2 ^ 28)%R) ->
  exists tr, forward_trace_rnd binary32 L x (Some a) pe (Some l) = Ok tr /\
    (forall h j, h < H -> j < Nat.min n0 N ->
       tget (tr_weighted_aff tr) [b; i; h; j] = binary32 (-9e15)) /\
    (forall h j, h < H -> j < Nat.min n0 N ->
       tget (tr_aff_softmax tr) [b; i; h; j] = (1 / INR (Nat.min n0 N))%R) /\
    (forall h c, h < H -> c < F ->
       tget (tr_output_t tr) [b; i * H + h; c]
       = (sum_n (Nat.min n0 N) (fun j => tget x [b; j; c]) / INR (Nat.min n0 N))%R) /\
    (forall o, o < F ->
       tget (tr_output tr) [b; i; o]
       = (out_bias theta o
          + sum_n F (fun c =>
              out_weight theta o c
              * (sum_n (Nat.min n0 N) (fun j => tget x [b; j; c])
                 / INR (Nat.min n0 N))))%R).
Proof.
  intros Hinit Hvalid Hb Hi Hmask Hsmall.
  exact (masked_row_rnd binary32 (2 ^ 28) _ _ _ _ _ _ _ _ _ _ _ _ _ _
           binary32_absorbs Hinit Hvalid Hb Hi Hmask Hsmall).
Qed.

Lemma fully_masked_row_witness :
  exists tr,
    forward_trace_rnd binary32 (unit_layer 2 (-1)) two_regions (Some adj_none) None
      (Some bias_small) = Ok tr /\
    tget bias_small [0; 0; 0]%nat <> tget bias_small [0; 0; 1]%nat /\
    tget (tr_aff_softmax tr) [0; 0; 0; 1] = (1 / INR 2%nat)%R /\
    tget (tr_output_t tr) [0; 0; 0]
    = (sum_n 2%nat (fun j => tget two_regions [0; j; 0]%nat) / INR 2%nat)%R.
Proof.
  destruct (fully_masked_row 1 2 (-1) 1 theta_unit (unit_layer 2 (-1))
              1 2 two_regions adj_none None bias_small 0 0
              (unit_layer_init 2 (-1))
              (unit_valid adj_none bias_small eq_refl eq_refl))
    as (tr & E & _ & Huni & Hmean & _).
  - lia.
  - lia.
  - intros j Hj. cbn in Hj.
    destruct j as [|[|j]]; [| |lia]; unfold adj_none, tget; cbn; lra.
  - intros j Hj. cbn in Hj. rewrite pow2_28.
    destruct j as [|[|j]]; [| |lia].
    + change (tget bias_small [0; 0; 0]) with 0%R. rewrite Rabs_R0. lra.
    + change (tget bias_small [0; 0; 1]) with 1%R. rewrite Rabs_R1. lra.
  - exists tr. split; [exact E|]. split.
    + change (tget bias_small [0; 0; 0]) with 0%R.
      change (tget bias_small [0; 0; 1]) with 1%R. lra.
    + split.
      * apply (Huni 0 1); cbn; lia.
      * apply (Hmean 0 0); lia.
Defined.

(** ** Further facts used below *)

Lemma view_error t spec e : view t spec = Raise e -> e = RuntimeError.
Proof.
  unfold view, infer_size. destruct (inferred spec) as [|[|k]]; cbn [bind].
  - destruct (_ =? _); cbn [bind]; [discriminate | congruence].
  - destruct (_ && _); cbn [bind]; [discriminate | congruence].
  - congruence.
Qed.

Lemma apply_fc_error m t e : apply_fc m t = Raise e -> e = RuntimeError.
Proof.
  unfold apply_fc. destruct (rev (shape t)) as [|d pre]; [congruence|].
  destruct (d =? in_features m); [discriminate | congruence].
Qed.

Lemma view_zero t spec :
  inferred spec = 1 -> known spec = 0 -> view t spec = Raise RuntimeError.
Proof.
  intros Hi Hk. unfold view, infer_size. now rewrite Hi, Hk.
Qed.

Lemma add_position_empty L m B n w p :
  pair_pos_fc1 L = Some m -> B = 0 \/ n = 0 ->
  add_position L B n w p = Raise RuntimeError.
Proof.
  intros Hfc Hz. unfold add_position, float.
  destruct (view p _) as [t1|e] eqn:E1; cbn [bind];
    [|apply view_error in E1; now subst].
  rewrite Hfc. cbn [bind].
  destruct (apply_fc m t1) as [t2|e] eqn:E2; cbn [bind];
    [|apply apply_fc_error in E2; now subst].
  rewrite view_zero; [reflexivity | reflexivity |].
  cbn [known fold_right]. destruct Hz as [-> | ->]; lia.
Qed.

Lemma aggregate_empty L B N H n v w :
  shape w = [B; N; H; n] -> B = 0 \/ n = 0 ->
  aggregate L B N n v w = Raise RuntimeError.
Proof.
  intros Sw Hz. unfold aggregate.
  destruct (softmax_spec4 w _ _ _ _ Sw) as (sm & -> & _). cbn [bind].
  rewrite view_zero; [reflexivity | reflexivity |].
  cbn [known fold_right]. destruct Hz as [-> | ->]; lia.
Qed.

Lemma bdim_none a b : a <> b -> a <> 1 -> b <> 1 -> bdim a b = None.
Proof.
  intros Hab Ha Hb. unfold bdim.
  replace (a =? b) with false by (symmetry; now apply Nat.eqb_neq).
  replace (a =? 1) with false by (symmetry; now apply Nat.eqb_neq).
  replace (b =? 1) with false by (symmetry; now apply Nat.eqb_neq).
  reflexivity.
Qed.

Lemma mask_and_bias_low_rank w a lb B N H n :
  shape w = [B; N; H; n] -> length (shape a) < 3 ->
  mask_and_bias w a lb = Raise IndexError.
Proof.
  intros Hw Hr. unfold mask_and_bias.
  destruct (transpose_23 w _ _ _ _ Hw) as (t1 & -> & _). cbn [bind].
  unfold size.
  destruct (shape a) as [|s0 [|s1 [|s2 r]]]; cbn [nth_error bind]; try reflexivity.
  cbn [length] in Hr. lia.
Qed.

Lemma mask_and_bias_mismatch w a lb B N H n m :
  shape w = [B; N; H; n] -> shape a = [B; N; m] ->
  m <> n -> m <> 1 -> n <> 1 ->
  mask_and_bias w a lb = Raise RuntimeError.
Proof.
  intros Hw Ha Hmn Hm Hn. unfold mask_and_bias.
  destruct (transpose_23 w _ _ _ _ Hw) as (t1 & -> & S1 & _).
  cbn [bind]. unfold size. rewrite Ha. cbn [nth_error bind].
  destruct (view_trailing_one a _ _ _ Ha) as (t2 & -> & S2 & _).
  cbn [bind]. unfold size_last. rewrite S1. cbn [rev app bind].
  destruct (expand_heads t2 _ _ _ H S2) as (t3 & -> & S3 & _).
  cbn [bind]. unfold where_pos. rewrite S3, S1.
  unfold broadcast_shapes. cbn [rev app bshape_rev].
  now rewrite bdim_same, (bdim_none m n) by assumption.
Qed.

(** A call with an adjacency matrix fails the way its masking stage does. *)
Lemma forward_mask_error F n0 P H theta L B N x pe a lb e :
  init F n0 P H theta = Ok L ->
  valid_inputs F n0 P B N x None pe None ->
  (forall w, shape w = [B; N; H; Nat.min n0 N] -> mask_and_bias w a lb = Raise e) ->
  forward L x (Some a) pe lb = Raise e.
Proof.
  intros Hinit (HB & HN & Hn0 & HF & Hx & _ & Hpe) Hmask.
  unfold forward, forward_trace.
  destruct (content_scores_spec _ _ _ _ _ _ B N x Hinit Hx HF)
    as (sc & -> & EB & EN & En & Sv & Vv & Sw0 & Vw0).
  cbn [bind]. rewrite EB, EN, En.
  destruct (position_stage_spec _ _ _ _ _ _ B N _ (sc_aff_scale sc) pe
              Hinit Sw0 HB) as (w1 & E1 & Sw1 & _); [lia | exact Hpe |].
  rewrite E1. cbn [bind]. now rewrite (Hmask w1 Sw1).
Qed.

Lemma sum_n_le n f g :
  (forall j, j < n -> (f j <= g j)%R) -> (sum_n n f <= sum_n n g)%R.
Proof.
  induction n as [|n IH]; intro H; [unfold sum_n; cbn; lra|].
  rewrite !sum_n_S.
  assert (f n <= g n)%R by (apply H; lia).
  assert (sum_n n f <= sum_n n g)%R by (apply IH; intros; apply H; lia). lra.
Qed.

(** A weighted mean lies between the bounds of the values it averages. *)
Lemma weighted_mean_bounds n (w v : nat -> R) lo hi :
  (forall j, j < n -> (0 <= w j)%R) -> sum_n n w = 1%R ->
  (forall j, j < n -> (lo <= v j <= hi)%R) ->
  (lo <= sum_n n (fun j => w j * v j) <= hi)%R.
Proof.
  intros Hw Hsum Hv. split.
  - replace lo with (sum_n n (fun j => w j * lo))%R.
    + apply sum_n_le. intros j Hj. apply Rmult_le_compat_l; [now apply Hw|].
      now apply Hv.
    + rewrite (sum_n_ext n _ (fun j => lo * w j)%R) by (intros; ring).
      rewrite sum_n_scal, Hsum. ring.
  - replace hi with (sum_n n (fun j => w j * hi))%R.
    + apply sum_n_le. intros j Hj. apply Rmult_le_compat_l; [now apply Hw|].
      now apply Hv.
    + rewrite (sum_n_ext n _ (fun j => hi * w j)%R) by (intros; ring).
      rewrite sum_n_scal, Hsum. ring.
Qed.

(** Softmax weights are invariant under a common shift of the scores. *)
Lemma softmax_shift n (g : nat -> R) c j :
  0 < n ->
  (exp (g j + c) / sum_n n (fun z => exp (g z + c))
   = exp (g j) / sum_n n (fun z => exp (g z)))%R.
Proof.
  intro Hn.
  rewrite (sum_n_ext n (fun z => exp (g z + c)) (fun z => exp c * exp (g z))%R)
    by (intros; rewrite exp_plus; ring).
  rewrite sum_n_scal, exp_plus.
  pose proof (exp_pos c). pose proof (sum_exp_pos n g Hn).
  field. split; lra.
Qed.

(** Every storage offset is the offset of an index in range. *)
Lemma unravel_exists sh : forall k,
  k < numel sh -> exists idx, in_range sh idx /\ ravel sh idx = k.
Proof.
  induction sh as [|n sh IH]; intros k Hk.
  - exists []. cbn in *. split; [exact I | lia].
  - cbn [numel fold_right] in Hk. fold (numel sh) in Hk.
    assert (Hm : 0 < numel sh) by nia.
    destruct (IH (k mod numel sh)) as (idx & Hr & He);
      [apply Nat.mod_upper_bound; lia|].
    exists (k / numel sh :: idx). cbn [in_range ravel]. split.
    + split; [|exact Hr]. apply Nat.Div0.div_lt_upper_bound. lia.
    + rewrite He. rewrite Nat.mul_comm. symmetry. apply Nat.div_mod_eq.
Qed.

(** Two well-formed tensors of one shape with equal entries are equal. *)
Lemma tensor_ext t t' :
  shape t = shape t' -> well_formed t -> well_formed t' ->
  (forall idx, in_range (shape t) idx -> tget t idx = tget t' idx) ->
  t = t'.
Proof.
  destruct t as [sh d], t' as [sh' d']. unfold well_formed, tget. cbn [shape data].
  intros <- Hd Hd' Hget. f_equal.
  apply (nth_ext d d' 0%R 0%R); [congruence|].
  intros k Hk. rewrite Hd in Hk.
  destruct (unravel_exists sh k Hk) as (idx & Hr & <-). now apply Hget.
Qed.

(** The softmax rows of a valid call. *)
Lemma trace_softmax_row F n0 P H theta L B N x adj pe lb tr :
  init F n0 P H theta = Ok L ->
  valid_inputs F n0 P B N x adj pe lb ->
  trace_facts L B N x adj pe lb tr ->
  forall b i h, b < B -> i < N -> h < num_heads L ->
    (forall j, j < tr_nongt_dim tr -> (0 <= tget (tr_aff_softmax tr) [b; i; h; j])%R) /\
    sum_n (tr_nongt_dim tr) (fun j => tget (tr_aff_softmax tr) [b; i; h; j]) = 1%R.
Proof.
  intros Hinit Hvalid T b i h Hb Hi Hh.
  pose proof (tf_softmax _ _ _ _ _ _ _ _ T b i h) as Vsm.
  assert (Hn : 0 < tr_nongt_dim tr).
  { rewrite (tf_nongt _ _ _ _ _ _ _ _ T).
    destruct (init_ok _ _ _ _ _ _ Hinit) as (_ & _ & ->). cbn [nongt_dim].
    destruct Hvalid as (_ & ? & ? & _). lia. }
  pose proof (sum_exp_pos (tr_nongt_dim tr)
                (fun z => tget (tr_weighted_aff tr) [b; i; h; z]) Hn) as Hpos.
  split.
  - intros j Hj. rewrite Vsm by assumption.
    apply Rlt_le, Rdiv_lt_0_compat; [apply exp_pos | exact Hpos].
  - rewrite (sum_n_ext _ _ _ (fun j Hj => Vsm j Hb Hi Hh Hj)).
    rewrite sum_n_div. field. lra.
Qed.

(** Two calls on the same features whose softmax weights agree return the
    same tensor. *)
Lemma output_determined_by_softmax F n0 P H theta L B N x adj pe lb adj' pe' lb' tr tr' :
  init F n0 P H theta = Ok L ->
  trace_facts L B N x adj pe lb tr ->
  trace_facts L B N x adj' pe' lb' tr' ->
  (forall b i h j, b < B -> i < N -> h < H -> j < Nat.min n0 N ->
     tget (tr_aff_softmax tr') [b; i; h; j] = tget (tr_aff_softmax tr) [b; i; h; j]) ->
  tr_output tr' = tr_output tr.
Proof.
  intros Hinit T T' Hsm.
  destruct (init_ok _ _ _ _ _ _ Hinit) as (HH & Hmod & HL).
  destruct T as [Tn _ Tv _ _ _ _ _ _ _ Tot Tos Twf Tout].
  destruct T' as [Tn' _ Tv' _ _ _ _ _ _ _ Tot' Tos' Twf' Tout'].
  rewrite Tn in *. rewrite Tn' in *. subst L.
  cbn [nongt_dim feat_dim num_heads dim dim_group linear_out_ item1 item2 fst snd
       weight bias] in *.
  apply tensor_ext; [congruence | assumption | assumption |].
  rewrite Tos'. intros idx Hidx.
  destruct idx as [|b [|i [|o [|z idx]]]]; cbn [in_range] in Hidx; try tauto.
  destruct Hidx as (Hb & Hi & Ho & _).
  rewrite Tout, Tout' by assumption. f_equal.
  apply sum_n_ext. intros c Hc.
  assert (Hh : o / (F / H) < H).
  { apply Nat.Div0.div_lt_upper_bound.
    replace (F / H * H) with F; [exact Ho|].
    rewrite Nat.mul_comm. now apply Nat.Div0.div_exact. }
  f_equal. rewrite Tot, Tot' by assumption.
  apply sum_n_ext. intros j Hj. now rewrite Hsm, Tv, Tv'.
Qed.

Lemma mask_and_bias_bias_low_rank w a l B N H n :
  shape w = [B; N; H; n] -> shape a = [B; N; n] -> length (shape l) < 3 ->
  mask_and_bias w a (Some l) = Raise IndexError.
Proof.
  intros Hw Ha Hr. unfold mask_and_bias.
  destruct (transpose_23 w _ _ _ _ Hw) as (t1 & -> & S1 & _).
  cbn [bind]. unfold size. rewrite Ha. cbn [nth_error bind].
  destruct (view_trailing_one a _ _ _ Ha) as (t2 & -> & S2 & _).
  cbn [bind]. unfold size_last. rewrite S1. cbn [rev app bind].
  destruct (expand_heads t2 _ _ _ H S2) as (t3 & -> & S3 & _).
  cbn [bind].
  assert (Sz : shape (scale sentinel (ones_like t1)) = [B; N; n; H]) by exact S1.
  destruct (where_pos_spec4 t3 t1 _ _ _ _ _ S3 S1 Sz) as (t4 & -> & _).
  cbn [bind]. unfold unsqueeze.
  replace (3 <=? length (shape l)) with false by (symmetry; apply Nat.leb_gt; exact Hr).
  reflexivity.
Qed.

(** ** The exception each tensor operation can raise *)

Lemma size_error t k e : size t k = Raise e -> e = IndexError.
Proof. unfold size. destruct (nth_error _ _); [discriminate | congruence]. Qed.

Lemma size_last_error t e : size_last t = Raise e -> e = IndexError.
Proof. unfold size_last. destruct (rev _); [congruence | discriminate]. Qed.

Lemma slice_dim1_error t n e : slice_dim1 t n = Raise e -> e = IndexError.
Proof.
  unfold slice_dim1. destruct (shape t) as [|a [|b [|c r]]]; congruence.
Qed.

Lemma transpose_error t a b e : transpose t a b = Raise e -> e = IndexError.
Proof. unfold transpose. destruct (_ && _); [discriminate | congruence]. Qed.

Lemma unsqueeze_error t k e : unsqueeze t k = Raise e -> e = IndexError.
Proof. unfold unsqueeze. destruct (_ <=? _); [discriminate | congruence]. Qed.

Lemma softmax_error t k e : softmax t k = Raise e -> e = IndexError.
Proof. unfold softmax. destruct (nth_error _ _); [discriminate | congruence]. Qed.

Lemma matmul_error a b e : matmul a b = Raise e -> e = RuntimeError.
Proof.
  unfold matmul.
  destruct (rev (shape a)) as [|k [|m ba]]; try congruence.
  destruct (rev (shape b)) as [|n [|k' bb]]; try congruence.
  destruct (k =? k'); [|congruence].
  destruct (bshape_rev ba bb); [discriminate | congruence].
Qed.

Lemma broadcast2_error g a b e : broadcast2 g a b = Raise e -> e = RuntimeError.
Proof. unfold broadcast2. destruct (broadcast_shapes _ _); [discriminate | congruence]. Qed.

Lemma iadd_error a b e : iadd a b = Raise e -> e = RuntimeError.
Proof.
  unfold iadd. destruct (broadcast_shapes _ _); [|congruence].
  destruct (shape_eqb _ _); [discriminate | congruence].
Qed.

Lemma where_pos_error c a b e : where_pos c a b = Raise e -> e = RuntimeError.
Proof.
  unfold where_pos. destruct (broadcast_shapes _ _); [|congruence].
  destruct (broadcast_shapes _ _); [discriminate | congruence].
Qed.

Lemma expand_error t spec e : expand t spec = Raise e -> e = RuntimeError.
Proof. unfold expand. destruct (expand_shape _ _); [discriminate | congruence]. Qed.

Lemma apply_conv_error m t e : apply_conv m t = Raise e -> e = RuntimeError.
Proof.
  unfold apply_conv.
  destruct (shape t) as [|s [|c [|h [|w [|z r]]]]]; try congruence.
  destruct (c =? in_channels m); [discriminate | congruence].
Qed.

Ltac op_error E :=
  first [ apply size_error in E | apply size_last_error in E
        | apply slice_dim1_error in E | apply transpose_error in E
        | apply unsqueeze_error in E | apply softmax_error in E
        | apply matmul_error in E | apply broadcast2_error in E
        | apply iadd_error in E | apply where_pos_error in E
        | apply expand_error in E | apply apply_conv_error in E
        | apply view_error in E | apply apply_fc_error in E ].

(** Follows a chain of binds that ends in [Raise e]: each operation either
    returned, or raised the one exception it can raise. *)
Ltac follow H :=
  repeat match type of H with
         | bind ?m _ = Raise _ =>
             let E := fresh "E" in
             destruct m eqn:E; cbn [bind] in H;
             [| injection H as <-; op_error E; subst; tauto]
         end.

Lemma content_scores_errors F n0 P H theta L x e :
  init F n0 P H theta = Ok L -> 0 < F ->
  content_scores L x = Raise e -> e = IndexError \/ e = RuntimeError.
Proof.
  intros Hinit HF Hr.
  destruct (init_ok _ _ _ _ _ _ Hinit) as (HH & Hmod & HL).
  assert (Hdg : (item1 (dim_group L) =? 0) = false).
  { subst L. cbn [dim_group item1 fst snd]. apply Nat.eqb_neq.
    assert (F = H * (F / H)) by (now apply Nat.Div0.div_exact). nia. }
  unfold content_scores in Hr. rewrite Hdg in Hr.
  follow Hr. discriminate.
Qed.

Lemma add_position_errors L m B n w p e :
  pair_pos_fc1 L = Some m ->
  add_position L B n w p = Raise e -> e = IndexError \/ e = RuntimeError.
Proof.
  intros Hfc Hr. unfold add_position, float, tmax in Hr. rewrite Hfc in Hr.
  follow Hr. apply iadd_error in Hr. tauto.
Qed.

Lemma mask_and_bias_errors w a lb e :
  mask_and_bias w a lb = Raise e ->
  e = IndexError \/ e = RuntimeError \/ (e = AttributeError /\ lb = None).
Proof.
  intro Hr. unfold mask_and_bias, tadd in Hr.
  destruct lb as [l|]; follow Hr;
    try (apply transpose_error in Hr; tauto).
  injection Hr as <-. tauto.
Qed.

Lemma aggregate_errors L B N n v w e :
  aggregate L B N n v w = Raise e -> e = IndexError \/ e = RuntimeError.
Proof.
  intro Hr. unfold aggregate in Hr. follow Hr. discriminate.
Qed.

(** ** Further properties of the constructor and of [forward] *)

(** X1. [__init__] raises [ZeroDivisionError] for zero heads, and builds a
    layer exactly when the number of heads is positive and divides the
    feature width. *)
Theorem init_outcome F n0 P H theta :
  (H = 0 -> init F n0 P H theta = Raise ZeroDivisionError) /\
  ((exists L, init F n0 P H theta = Ok L) <-> 0 < H /\ F mod H = 0).
Proof.
  split.
  - intros ->. reflexivity.
  - split.
    + intros (L & HL). destruct (init_ok _ _ _ _ _ _ HL) as (HH & Hmod & _). now split.
    + intros (HH & Hmod). unfold init, Conv2d_init, item0, item1, item2. cbn [fst snd].
      replace (H =? 0) with false by (symmetry; apply Nat.eqb_neq; lia).
      replace ((H * F) mod H =? 0) with true
        by (symmetry; apply Nat.eqb_eq; rewrite Nat.mul_comm; apply Nat.Div0.mod_mul).
      replace (F mod H =? 0) with true by (symmetry; now apply Nat.eqb_eq).
      cbn [negb bind]. eexists. reflexivity.
Qed.

Lemma init_outcome_witness :
  init 4 20 (-1) 0 theta_unit = Raise ZeroDivisionError /\
  exists L, init 64 20 (-1) 16 theta_unit = Ok L.
Proof.
  split.
  - apply (proj1 (init_outcome 4 20 (-1) 0 theta_unit)). reflexivity.
  - apply (proj2 (init_outcome 64 20 (-1) 16 theta_unit)). split; [lia | reflexivity].
Defined.

(** X2. Every layer that [__init__] returns splits the feature axis
    exactly: [num_heads * dim_group = feat_dim] for the three components,
    [fc_dim = num_heads], the positional projection exists exactly when
    [pos_emb_dim > 0] (then it maps width [pos_emb_dim] to [num_heads]),
    and the output convolution has [num_heads * feat_dim] input channels
    in [num_heads] groups and [feat_dim] output channels. *)
Theorem constructed_layer_invariants F n0 P H theta L :
  init F n0 P H theta = Ok L ->
  fc_dim L = num_heads L /\
  num_heads L * item0 (dim_group L) = feat_dim L /\
  num_heads L * item1 (dim_group L) = feat_dim L /\
  num_heads L * item2 (dim_group L) = feat_dim L /\
  ((0 < pos_emb_dim L)%Z ->
     exists m, pair_pos_fc1 L = Some m /\
       in_features m = Z.to_nat (pos_emb_dim L) /\ out_features m = num_heads L) /\
  ((pos_emb_dim L <= 0)%Z -> pair_pos_fc1 L = None) /\
  in_channels (linear_out_ L) = num_heads L * feat_dim L /\
  groups (linear_out_ L) = num_heads L /\
  out_channels (linear_out_ L) = feat_dim L /\
  in_channels (linear_out_ L) / groups (linear_out_ L) = feat_dim L.
Proof.
  intro Hinit. destruct (init_ok _ _ _ _ _ _ Hinit) as (HH & Hmod & ->).
  cbn [fc_dim num_heads dim_group item0 item1 item2 fst snd feat_dim pos_emb_dim
       pair_pos_fc1 linear_out_ in_channels groups out_channels].
  assert (E : H * (F / H) = F) by (symmetry; now apply Nat.Div0.div_exact).
  repeat split; try exact E.
  - intro HP. apply Z.ltb_lt in HP. rewrite HP. eexists. repeat split.
  - intro HP. apply Z.ltb_ge in HP. now rewrite HP.
  - rewrite Nat.mul_comm. apply Nat.div_mul. lia.
Qed.

Lemma constructed_layer_invariants_witness :
  num_heads (unit_layer 2 1) * item0 (dim_group (unit_layer 2 1))
  = feat_dim (unit_layer 2 1).
Proof.
  apply (constructed_layer_invariants 1 2 1 1 theta_unit (unit_layer 2 1)
           (unit_layer_init 2 1)).
Defined.

(** X3. A feature tensor with fewer than three axes makes [forward] raise
    [IndexError] (at [size] or at the slice of line 73), whatever the
    layer and the other arguments. *)
Theorem forward_rejects_low_rank L x adj pe lb :
  length (shape x) < 3 -> forward L x adj pe lb = Raise IndexError.
Proof.
  intro Hr. unfold forward, forward_trace, content_scores, size, slice_dim1.
  destruct (shape x) as [|a [|b [|c r]]]; cbn [nth_error bind]; try reflexivity.
  cbn [length] in Hr. lia.
Qed.

Lemma forward_rejects_low_rank_witness :
  forward (unit_layer 2 (-1)) flat_features None None None = Raise IndexError.
Proof.
  apply (forward_rejects_low_rank (unit_layer 2 (-1)) flat_features None None None).
  cbn. lia.
Defined.

(** X4. An empty batch, an input without regions or a neighbourhood cap of
    zero makes [forward] raise [RuntimeError]: the size [-1] of the view of
    line 155 (or of line 120) cannot be inferred for a tensor without
    elements. *)
Theorem forward_rejects_empty F n0 P H theta L B N x pe lb :
  init F n0 P H theta = Ok L ->
  0 < F -> shape x = [B; N; F] ->
  B = 0 \/ Nat.min n0 N = 0 ->
  forward L x None pe lb = Raise RuntimeError.
Proof.
  intros Hinit HF Hx Hz.
  unfold forward, forward_trace.
  destruct (content_scores_spec _ _ _ _ _ _ B N x Hinit Hx HF)
    as (sc & -> & EB & EN & En & Sv & Vv & Sw0 & Vw0).
  cbn [bind]. rewrite EB, EN, En.
  destruct (init_ok _ _ _ _ _ _ Hinit) as (HH & Hmod & HL).
  assert (Hpe : match pe with
                | Some p =>
                    if (0 <? pos_emb_dim L)%Z
                    then add_position L B (Nat.min n0 N) (sc_aff_scale sc) p
                    else Ok (sc_aff_scale sc)
                | None => Ok (sc_aff_scale sc)
                end = Raise RuntimeError \/
                match pe with
                | Some p =>
                    if (0 <? pos_emb_dim L)%Z
                    then add_position L B (Nat.min n0 N) (sc_aff_scale sc) p
                    else Ok (sc_aff_scale sc)
                | None => Ok (sc_aff_scale sc)
                end = Ok (sc_aff_scale sc)).
  { destruct pe as [p|]; [|now right].
    destruct (0 <? pos_emb_dim L)%Z eqn:EP; [|now right].
    left. apply add_position_empty with (m := mkFCNet (Z.to_nat P) H (pos_fn theta));
      [|exact Hz].
    subst L. cbn [pair_pos_fc1 pos_emb_dim] in *. now rewrite EP. }
  destruct Hpe as [-> | ->]; cbn [bind]; [reflexivity|].
  now rewrite (aggregate_empty L B N H _ (sc_v_data sc) _ Sw0 Hz).
Qed.

Lemma forward_rejects_empty_witness :
  forward (unit_layer 2 (-1)) no_regions None None None = Raise RuntimeError /\
  forward (unit_layer 0 (-1)) two_regions None None None = Raise RuntimeError.
Proof.
  split.
  - apply (forward_rejects_empty 1 2 (-1) 1 theta_unit (unit_layer 2 (-1)) 1 0 no_regions
             None None (unit_layer_init 2 (-1))); [lia | reflexivity | right; reflexivity].
  - apply (forward_rejects_empty 1 0 (-1) 1 theta_unit (unit_layer 0 (-1)) 1 2 two_regions
             None None (unit_layer_init 0 (-1))); [lia | reflexivity | right; reflexivity].
Defined.

(** X5. On otherwise valid inputs, an adjacency matrix with fewer than
    three axes makes [forward] raise [IndexError] (the shape lookups of
    lines 138-140), whether or not label biases are given. *)
Theorem forward_rejects_low_rank_adjacency F n0 P H theta L B N x pe a lb :
  init F n0 P H theta = Ok L ->
  valid_inputs F n0 P B N x None pe None ->
  length (shape a) < 3 ->
  forward L x (Some a) pe lb = Raise IndexError.
Proof.
  intros Hinit Hvalid Hr.
  apply (forward_mask_error F n0 P H theta L B N x pe a lb IndexError Hinit Hvalid).
  intros w Sw. now apply (mask_and_bias_low_rank w a lb B N H (Nat.min n0 N)).
Qed.

Lemma forward_rejects_low_rank_adjacency_witness :
  forward (unit_layer 2 (-1)) two_regions (Some flat_features) None (Some bias_zero)
  = Raise IndexError.
Proof.
  apply (forward_rejects_low_rank_adjacency 1 2 (-1) 1 theta_unit (unit_layer 2 (-1))
           1 2 two_regions None flat_features (Some bias_zero) (unit_layer_init 2 (-1))).
  - unfold valid_inputs. cbn. repeat split; lia.
  - cbn. lia.
Defined.

(** X6. On otherwise valid inputs, an adjacency matrix of shape (B, N, m)
    whose neighbour count [m] is neither the effective neighbourhood size
    nor 1 (and the neighbourhood size is not 1 either) makes [forward]
    raise [RuntimeError] at [torch.where]: the shapes do not broadcast. *)
Theorem forward_rejects_adjacency_width F n0 P H theta L B N x pe a lb m :
  init F n0 P H theta = Ok L ->
  valid_inputs F n0 P B N x None pe None ->
  shape a = [B; N; m] ->
  m <> Nat.min n0 N -> m <> 1 -> Nat.min n0 N <> 1 ->
  forward L x (Some a) pe lb = Raise RuntimeError.
Proof.
  intros Hinit Hvalid Sa Hmn Hm Hn.
  apply (forward_mask_error F n0 P H theta L B N x pe a lb RuntimeError Hinit Hvalid).
  intros w Sw. now apply (mask_and_bias_mismatch w a lb B N H (Nat.min n0 N) m).
Qed.

Lemma forward_rejects_adjacency_width_witness :
  forward (unit_layer 2 (-1)) two_regions (Some adj_wide) None (Some bias_zero)
  = Raise RuntimeError.
Proof.
  apply (forward_rejects_adjacency_width 1 2 (-1) 1 theta_unit (unit_layer 2 (-1))
           1 2 two_regions None adj_wide (Some bias_zero) 3 (unit_layer_init 2 (-1))).
  - unfold valid_inputs. cbn. repeat split; lia.
  - reflexivity.
  - cbn. lia.
  - lia.
  - cbn. lia.
Defined.

(** X7. Each aggregated entry is a weighted mean of the neighbours'
    feature entries: it lies between any bounds that hold for component
    [c] of the neighbour rows, whatever the scores, the mask and the
    biases are. *)
Theorem aggregate_within_neighbour_range F n0 P H theta L B N x adj pe lb b i h c lo hi :
  init F n0 P H theta = Ok L ->
  valid_inputs F n0 P B N x adj pe lb ->
  b < B -> i < N -> h < H -> c < F ->
  (forall j, j < Nat.min n0 N -> (lo <= tget x [b; j; c] <= hi)%R) ->
  exists tr, forward_trace L x adj pe lb = Ok tr /\
    (lo <= tget (tr_output_t tr) [b; i * H + h; c]%nat <= hi)%R.
Proof.
  intros Hinit Hvalid Hb Hi Hh Hc Hbounds.
  destruct (forward_trace_spec _ _ _ _ _ _ _ _ _ _ _ _ Hinit Hvalid) as (tr & E & T).
  exists tr. split; [exact E|].
  destruct (init_ok _ _ _ _ _ _ Hinit) as (_ & _ & HL).
  assert (HLh : num_heads L = H) by (now subst L).
  assert (HLf : feat_dim L = F) by (now subst L).
  assert (HLn : tr_nongt_dim tr = Nat.min n0 N)
    by (rewrite (tf_nongt _ _ _ _ _ _ _ _ T); now subst L).
  destruct (trace_softmax_row _ _ _ _ _ _ _ _ _ _ _ _ _ Hinit Hvalid T b i h)
    as (Hnn & Hsum); try assumption; [now rewrite HLh|].
  pose proof (tf_output_t _ _ _ _ _ _ _ _ T b i h c) as Hot.
  rewrite HLh, HLf in Hot. rewrite Hot by assumption.
  rewrite HLn in *.
  rewrite (sum_n_ext _ _ (fun j => tget (tr_aff_softmax tr) [b; i; h; j]
                                   * tget x [b; j; c])%R).
  - now apply weighted_mean_bounds.
  - intros j Hj. f_equal. apply (tf_v _ _ _ _ _ _ _ _ T); rewrite ?HLn, ?HLf; assumption.
Qed.

Lemma aggregate_within_neighbour_range_witness :
  exists tr,
    forward_trace (unit_layer 2 (-1)) two_regions (Some adj_half) None (Some bias_large)
    = Ok tr /\
    (1 <= tget (tr_output_t tr) [0; 1; 0]%nat <= 3)%R.
Proof.
  apply (aggregate_within_neighbour_range 1 2 (-1) 1 theta_unit (unit_layer 2 (-1)) 1 2
           two_regions (Some adj_half) None (Some bias_large) 0 1 0 0 1 3
           (unit_layer_init 2 (-1)) (unit_valid adj_half bias_large eq_refl eq_refl));
    try lia.
  intros j Hj. cbn in Hj.
  destruct j as [|[|j]]; [| |lia]; unfold two_regions, tget; cbn; lra.
Defined.

(** X8. With an effective neighbourhood of one region (a cap of 1, or a
    single region), the softmax weight is 1 and every output row of an
    image is the output projection of that image's first feature row,
    whatever the region, the scores, the mask and the biases are. *)
Theorem single_neighbour_output F n0 P H theta L B N x adj pe lb :
  init F n0 P H theta = Ok L ->
  valid_inputs F n0 P B N x adj pe lb ->
  Nat.min n0 N = 1 ->
  exists tr, forward_trace L x adj pe lb = Ok tr /\
    (forall b i h, b < B -> i < N -> h < H ->
       tget (tr_aff_softmax tr) [b; i; h; 0] = 1%R) /\
    (forall b i o, b < B -> i < N -> o < F ->
       tget (tr_output tr) [b; i; o]
       = (out_bias theta o
          + sum_n F (fun c => out_weight theta o c * tget x [b; 0; c]%nat))%R).
Proof.
  intros Hinit Hvalid Hone.
  destruct (forward_trace_spec _ _ _ _ _ _ _ _ _ _ _ _ Hinit Hvalid) as (tr & E & T).
  exists tr. split; [exact E|].
  destruct (init_ok _ _ _ _ _ _ Hinit) as (HH & Hmod & HL).
  destruct T as [Tn _ Tv _ _ _ _ _ Tsm _ Tot _ _ Tout].
  rewrite Tn in *. subst L.
  cbn [nongt_dim feat_dim num_heads dim dim_group linear_out_ item1 item2 fst snd
       weight bias] in *.
  rewrite Hone in *.
  assert (Hw : forall b i h, b < B -> i < N -> h < H ->
            tget (tr_aff_softmax tr) [b; i; h; 0] = 1%R).
  { intros b i h Hb Hi Hh. rewrite Tsm by (try assumption; lia).
    unfold sum_n. cbn [seq map fold_right].
    pose proof (exp_pos (tget (tr_weighted_aff tr) [b; i; h; 0])). field. lra. }
  split; [exact Hw|].
  intros b i o Hb Hi Ho. rewrite Tout by assumption. f_equal.
  apply sum_n_ext. intros c Hc. f_equal.
  assert (Hh : o / (F / H) < H).
  { apply Nat.Div0.div_lt_upper_bound.
    replace (F / H * H) with F; [exact Ho|].
    rewrite Nat.mul_comm. now apply Nat.Div0.div_exact. }
  rewrite Tot by assumption.
  unfold sum_n. cbn [seq map fold_right].
  rewrite Hw, Tv by (try assumption; lia). ring.
Qed.

Lemma single_neighbour_output_witness :
  exists tr,
    forward_trace (unit_layer 1 (-1)) two_regions None None None = Ok tr /\
    tget (tr_output tr) [0; 1; 0]
    = (0 + sum_n 1%nat (fun c => 1 * tget two_regions [0; 0; c]%nat))%R.
Proof.
  destruct (single_neighbour_output 1 1 (-1) 1 theta_unit (unit_layer 1 (-1)) 1 2
              two_regions None None None (unit_layer_init 1 (-1)))
    as (tr & E & _ & Hout).
  - unfold valid_inputs. cbn. repeat split; lia.
  - reflexivity.
  - exists tr. split; [exact E|]. apply (Hout 0 1 0); lia.
Defined.

(** X9. Without adjacency and with a position embedding on a layer with
    [pos_emb_dim > 0], adding the logarithm of the clamped gate before the
    softmax multiplies the weights: the weight of neighbour [j] is
    [g j * exp (c j)] normalised over the neighbours, [c] being the content
    score and [g] the gate [max (max (fc (pe)) 0) 1e-6]. *)
Theorem position_gate_multiplies F n0 P H theta L B N x p lb :
  init F n0 P H theta = Ok L ->
  (0 < P)%Z ->
  valid_inputs F n0 P B N x None (Some p) lb ->
  exists tr, forward_trace L x None (Some p) lb = Ok tr /\
    forall b i h j, b < B -> i < N -> h < H -> j < Nat.min n0 N ->
      let g := fun z =>
        Rmax (Rmax (pos_fn theta (row p [b; i; z] (Z.to_nat P)) h) 0) 1e-6 in
      let c := fun z => tget (tr_aff_scale tr) [b; i; h; z] in
      tget (tr_aff_softmax tr) [b; i; h; j]
      = (g j * exp (c j) / sum_n (Nat.min n0 N) (fun z => g z * exp (c z)))%R.
Proof.
  intros Hinit HP Hvalid.
  destruct (forward_trace_spec _ _ _ _ _ _ _ _ _ _ _ _ Hinit Hvalid) as (tr & E & T).
  exists tr. split; [exact E|].
  destruct (init_ok _ _ _ _ _ _ Hinit) as (HH & Hmod & HL).
  destruct T as [Tn _ _ _ _ _ Tw _ Tsm _ _ _ _ _].
  rewrite Tn in *. subst L.
  cbn [nongt_dim num_heads] in Tw, Tsm.
  intros b i h j Hb Hi Hh Hj g c.
  assert (Hg : forall z, (0 < g z)%R).
  { intro z. unfold g. apply Rlt_le_trans with 1e-6%R; [lra | apply Rmax_r]. }
  assert (Hw : forall z, z < Nat.min n0 N ->
            exp (tget (tr_weighted_aff tr) [b; i; h; z]) = (g z * exp (c z))%R).
  { intros z Hz. rewrite Tw by assumption. cbn [masked].
    unfold position_term. cbn [pair_pos_fc1].
    replace (0 <? P)%Z with true by (symmetry; now apply Z.ltb_lt).
    cbn [fc_row in_features].
    change (Rmax (Rmax (pos_fn theta (row p [b; i; z] (Z.to_nat P)) h) 0) thresh_value)
      with (g z).
    rewrite exp_plus, exp_ln by apply Hg. unfold c. ring. }
  rewrite Tsm by assumption. rewrite Hw by assumption. f_equal.
  apply sum_n_ext. intros z Hz. now apply Hw.
Qed.

Lemma position_gate_multiplies_witness :
  exists tr,
    forward_trace (unit_layer 2 1) two_regions None (Some pos_two) None = Ok tr /\
    tget (tr_aff_softmax tr) [0; 0; 0; 0]
    = (Rmax (Rmax (pos_fn theta_unit (row pos_two [0; 0; 0]%nat 1%nat) 0%nat) 0) 1e-6
       * exp (tget (tr_aff_scale tr) [0; 0; 0; 0]%nat)
       / sum_n 2%nat (fun z =>
           Rmax (Rmax (pos_fn theta_unit (row pos_two [0; 0; z]%nat 1%nat) 0%nat) 0) 1e-6
           * exp (tget (tr_aff_scale tr) [0; 0; 0; z]%nat)))%R.
Proof.
  destruct (position_gate_multiplies 1 2 1 1 theta_unit (unit_layer 2 1) 1 2 two_regions
              pos_two None (unit_layer_init 2 1))
    as (tr & E & Hgate).
  - lia.
  - unfold valid_inputs. cbn. repeat split; lia.
  - exists tr. split; [exact E|]. apply (Hgate 0 0 0 0); cbn; lia.
Defined.

(** X10. On valid inputs the intermediate tensors have the shapes the
    comments of [forward] give them: the values (B, nongt, F), the scores
    before and after the optional stages and the softmax weights
    (B, N, heads, nongt), the aggregated rows (B, N * heads, F) and the
    output (B, N, F). *)
Theorem intermediate_shapes F n0 P H theta L B N x adj pe lb :
  init F n0 P H theta = Ok L ->
  valid_inputs F n0 P B N x adj pe lb ->
  exists tr, forward_trace L x adj pe lb = Ok tr /\
    shape (tr_v_data tr) = [B; Nat.min n0 N; F] /\
    shape (tr_aff_scale tr) = [B; N; H; Nat.min n0 N] /\
    shape (tr_weighted_aff tr) = [B; N; H; Nat.min n0 N] /\
    shape (tr_aff_softmax tr) = [B; N; H; Nat.min n0 N] /\
    shape (tr_output_t tr) = [B; N * H; F] /\
    shape (tr_output tr) = [B; N; F].
Proof.
  intros Hinit Hvalid.
  destruct (forward_trace_spec _ _ _ _ _ _ _ _ _ _ _ _ Hinit Hvalid) as (tr & E & T).
  exists tr. split; [exact E|].
  destruct (init_ok _ _ _ _ _ _ Hinit) as (_ & _ & HL).
  destruct T as [Tn S1 _ S2 _ S3 _ S4 _ S5 _ S6 _ _].
  rewrite Tn in *. subst L.
  cbn [nongt_dim feat_dim num_heads dim item2 snd] in *.
  repeat split; assumption.
Qed.

Lemma intermediate_shapes_witness :
  exists tr,
    forward_trace (unit_layer 20 (-1)) five_regions None None None = Ok tr /\
    shape (tr_aff_softmax tr) = [1; 5; 1; 5] /\
    shape (tr_output_t tr) = [1; 5; 1].
Proof.
  destruct (intermediate_shapes 1 20 (-1) 1 theta_unit (unit_layer 20 (-1)) 1 5
              five_regions None None None (unit_layer_init 20 (-1)))
    as (tr & E & _ & _ & _ & S4 & S5 & _).
  - unfold valid_inputs. cbn. repeat split; lia.
  - exists tr. split; [exact E|]. split; [exact S4 | exact S5].
Defined.

(** X11. On otherwise valid inputs with an adjacency matrix of the right
    shape, label biases with fewer than three axes make [forward] raise
    [IndexError] at [unsqueeze(3)], after the mask has been applied. *)
Theorem forward_rejects_low_rank_biases F n0 P H theta L B N x pe a l :
  init F n0 P H theta = Ok L ->
  valid_inputs F n0 P B N x None pe None ->
  shape a = [B; N; Nat.min n0 N] ->
  length (shape l) < 3 ->
  forward L x (Some a) pe (Some l) = Raise IndexError.
Proof.
  intros Hinit Hvalid Sa Hr.
  apply (forward_mask_error F n0 P H theta L B N x pe a (Some l) IndexError Hinit Hvalid).
  intros w Sw. now apply (mask_and_bias_bias_low_rank w a l B N H (Nat.min n0 N)).
Qed.

Lemma forward_rejects_low_rank_biases_witness :
  forward (unit_layer 2 (-1)) two_regions (Some adj_half) None (Some flat_features)
  = Raise IndexError.
Proof.
  apply (forward_rejects_low_rank_biases 1 2 (-1) 1 theta_unit (unit_layer 2 (-1))
           1 2 two_regions None adj_half flat_features (unit_layer_init 2 (-1))).
  - unfold valid_inputs. cbn. repeat split; lia.
  - reflexivity.
  - cbn. lia.
Defined.



(** X13. The adjacency matrix is read through the test [> 0] only: two
    adjacency matrices with the same pattern of positive entries give the
    same result. *)
Theorem adjacency_read_by_sign F n0 P H theta L B N x a a' pe l :
  init F n0 P H theta = Ok L ->
  valid_inputs F n0 P B N x (Some a) pe (Some l) ->
  shape a' = [B; N; Nat.min n0 N] ->
  (forall b i j, b < B -> i < N -> j < Nat.min n0 N ->
     ((0 < tget a [b; i; j])%R <-> (0 < tget a' [b; i; j])%R)) ->
  forward L x (Some a) pe (Some l) = forward L x (Some a') pe (Some l).
Proof.
  intros Hinit Hvalid Sa' Hsign.
  assert (Hvalid' : valid_inputs F n0 P B N x (Some a') pe (Some l)).
  { destruct Hvalid as (? & ? & ? & ? & ? & (_ & ?) & ?). repeat split; assumption. }
  destruct (forward_trace_spec _ _ _ _ _ _ _ _ _ _ _ _ Hinit Hvalid) as (tr & E & T).
  destruct (forward_trace_spec _ _ _ _ _ _ _ _ _ _ _ _ Hinit Hvalid') as (tr' & E' & T').
  unfold forward. rewrite E, E'. cbn [bind]. f_equal.
  apply (output_determined_by_softmax F n0 P H theta L B N x (Some a') pe (Some l)
           (Some a) pe (Some l) tr' tr Hinit T' T).
  intros b i h j Hb Hi Hh Hj.
  destruct (init_ok _ _ _ _ _ _ Hinit) as (_ & _ & HL).
  destruct T as [Tn _ _ _ Tsc _ Tw _ Tsm _ _ _ _ _].
  destruct T' as [Tn' _ _ _ Tsc' _ Tw' _ Tsm' _ _ _ _ _].
  rewrite Tn in *. rewrite Tn' in *.
  assert (HLh : num_heads L = H) by (now subst L).
  assert (HLn : nongt_dim L = n0) by (now subst L).
  rewrite HLh, HLn in *.
  assert (Hw : forall z, z < Nat.min n0 N ->
            tget (tr_weighted_aff tr) [b; i; h; z]
            = tget (tr_weighted_aff tr') [b; i; h; z]).
  { intros z Hz. rewrite Tw, Tw', Tsc, Tsc' by assumption. cbn [masked].
    destruct (Hsign b i z Hb Hi Hz) as [H1 H2].
    destruct (Rlt_dec 0 (tget a [b; i; z])) as [Ha|Ha],
             (Rlt_dec 0 (tget a' [b; i; z])) as [Ha'|Ha']; try reflexivity.
    - exfalso. apply Ha'. now apply H1.
    - exfalso. apply Ha. now apply H2. }
  rewrite Tsm, Tsm', Hw by assumption. f_equal.
  apply sum_n_ext. intros z Hz. now rewrite Hw.
Qed.

Lemma adjacency_read_by_sign_witness :
  forward (unit_layer 2 (-1)) two_regions (Some adj_half) None (Some bias_zero)
  = forward (unit_layer 2 (-1)) two_regions (Some adj_scaled) None (Some bias_zero).
Proof.
  apply (adjacency_read_by_sign 1 2 (-1) 1 theta_unit (unit_layer 2 (-1))
           1 2 two_regions adj_half adj_scaled None bias_zero (unit_layer_init 2 (-1))
           (unit_valid adj_half bias_zero eq_refl eq_refl)).
  - reflexivity.
  - intros b i j Hb Hi Hj. cbn in Hj.
    destruct b as [|b]; [|lia].
    destruct i as [|[|i]]; [| |lia]; (destruct j as [|[|j]]; [| |lia]);
      unfold adj_half, adj_scaled, tget; cbn; split; lra.
Defined.

(** X14. Without adjacency and position embedding, [forward] is scaled
    dot-product attention over the raw features followed by the grouped
    projection: head [h] scores neighbour [j] by the dot product of the
    [h]-th slices of the projected query and key rows divided by
    [sqrt (F / H)], the weights are the softmax of these scores over the
    neighbours, and output channel [o] mixes the rows aggregated by head
    [o / (F / H)]. *)
Theorem plain_attention_formula F n0 P H theta L B N x lb :
  init F n0 P H theta = Ok L ->
  valid_inputs F n0 P B N x None None lb ->
  exists out, forward L x None None lb = Ok out /\
    forall b i o, b < B -> i < N -> o < F ->
      let dg := F / H in
      let n := Nat.min n0 N in
      let score := fun h j =>
        (1 / sqrt (INR dg)
         * sum_n dg (fun c =>
             query_fn theta (row x [b; i] F) (h * dg + c)%nat
             * key_fn theta (row x [b; j] F) (h * dg + c)%nat))%R in
      let att := fun h j =>
        (exp (score h j) / sum_n n (fun z => exp (score h z)))%R in
      tget out [b; i; o]
      = (out_bias theta o
         + sum_n F (fun c =>
             out_weight theta o c
             * sum_n n (fun j => att (o / dg)%nat j * tget x [b; j; c])))%R.
Proof.
  intros Hinit Hvalid.
  destruct (forward_trace_spec _ _ _ _ _ _ _ _ _ _ _ _ Hinit Hvalid) as (tr & E & T).
  exists (tr_output tr). unfold forward. rewrite E.
  split; [reflexivity|].
  intros b i o Hb Hi Ho.
  destruct (init_ok _ _ _ _ _ _ Hinit) as (HH & Hmod & HL).
  destruct T as [Tn _ Tv _ Tsc _ Tw _ Tsm _ Tot _ _ Tout].
  rewrite Tn in *. subst L.
  cbn [nongt_dim feat_dim num_heads dim dim_group linear_out_ query key fc_row
       item1 item2 fst snd weight bias] in Tv, Tsc, Tw, Tsm, Tot, Tout.
  set (dg := F / H) in *. set (n := Nat.min n0 N) in *.
  assert (Hh : o / dg < H).
  { apply Nat.Div0.div_lt_upper_bound.
    replace (dg * H) with F; [exact Ho|].
    unfold dg. rewrite Nat.mul_comm. now apply Nat.Div0.div_exact. }
  assert (Hw : forall j, j < n ->
            tget (tr_weighted_aff tr) [b; i; o / dg; j]
            = (1 / sqrt (INR dg)
               * sum_n dg (fun c =>
                   query_fn theta (row x [b; i] F) (o / dg * dg + c)%nat
                   * key_fn theta (row x [b; j] F) (o / dg * dg + c)%nat))%R).
  { intros j Hj. rewrite Tw, Tsc by assumption.
    cbn [masked position_term]. ring. }
  rewrite Tout by assumption. f_equal.
  apply sum_n_ext. intros c Hc. f_equal.
  rewrite Tot by assumption.
  apply sum_n_ext. intros j Hj. rewrite Tsm, Tv, Hw by assumption.
  do 2 f_equal. apply sum_n_ext. intros z Hz. now rewrite Hw.
Qed.

Lemma plain_attention_formula_witness :
  exists out, forward (unit_layer 2 (-1)) two_regions None None None = Ok out.
Proof.
  destruct (plain_attention_formula 1 2 (-1) 1 theta_unit (unit_layer 2 (-1)) 1 2
              two_regions None (unit_layer_init 2 (-1)))
    as (out & E & _).
  - unfold valid_inputs. cbn. repeat split; lia.
  - now exists out.
Defined.

(** X15. A neighbourhood cap at or above the number of regions is not
    distinguished from any other such cap: two layers built from the same
    parameters that differ only in a cap of at least [N] return the same
    result on features with [N] regions. *)
Theorem cap_above_regions_irrelevant F n0 n0' P H theta L L' x B N rest adj pe lb :
  init F n0 P H theta = Ok L ->
  init F n0' P H theta = Ok L' ->
  shape x = B :: N :: rest ->
  N <= n0 -> N <= n0' ->
  forward L x adj pe lb = forward L' x adj pe lb.
Proof.
  intros Hinit Hinit' Hx Hn Hn'.
  destruct (init_ok _ _ _ _ _ _ Hinit) as (_ & _ & ->).
  destruct (init_ok _ _ _ _ _ _ Hinit') as (_ & _ & ->).
  unfold forward, forward_trace, content_scores, size. rewrite Hx.
  cbn [nth_error bind nongt_dim].
  rewrite !nongt_min.
  replace (Nat.min n0 N) with N by lia. replace (Nat.min n0' N) with N by lia.
  reflexivity.
Qed.

Lemma cap_above_regions_irrelevant_witness :
  forward (unit_layer 20 (-1)) five_regions None None None
  = forward (unit_layer 5 (-1)) five_regions None None None.
Proof.
  apply (cap_above_regions_irrelevant 1 20 5 (-1) 1 theta_unit (unit_layer 20 (-1))
           (unit_layer 5 (-1)) five_regions 1 5 [1] None None None
           (unit_layer_init 20 (-1)) (unit_layer_init 5 (-1)) eq_refl); lia.
Defined.

(** X16. On a layer that [__init__] returned, with a positive feature
    width, [forward] raises nothing but [IndexError] and [RuntimeError] for
    any arguments whatever, except [AttributeError] when an adjacency
    matrix is given without label biases: never [ZeroDivisionError], never
    [ValueError], and never [AttributeError] for a missing positional
    projection. *)
Theorem forward_error_kinds F n0 P H theta L x adj pe lb e :
  init F n0 P H theta = Ok L -> 0 < F ->
  forward L x adj pe lb = Raise e ->
  e = IndexError \/ e = RuntimeError \/
  (e = AttributeError /\ adj <> None /\ lb = None).
Proof.
  intros Hinit HF Hr. unfold forward, forward_trace in Hr.
  destruct (content_scores L x) as [sc|e0] eqn:Esc; cbn [bind] in Hr.
  2:{ injection Hr as <-.
      destruct (content_scores_errors _ _ _ _ _ _ _ _ Hinit HF Esc); tauto. }
  destruct (match pe with
            | Some p =>
                if (0 <? pos_emb_dim L)%Z
                then add_position L (sc_batch_size sc) (sc_nongt_dim sc)
                       (sc_aff_scale sc) p
                else Ok (sc_aff_scale sc)
            | None => Ok (sc_aff_scale sc)
            end) as [w1|e1] eqn:Epe; cbn [bind] in Hr.
  2:{ injection Hr as <-.
      destruct pe as [p|]; [|discriminate].
      destruct (0 <? pos_emb_dim L)%Z eqn:EP; [|discriminate].
      destruct (init_ok _ _ _ _ _ _ Hinit) as (_ & _ & HL).
      assert (Hfc : pair_pos_fc1 L = Some (mkFCNet (Z.to_nat P) H (pos_fn theta))).
      { subst L. cbn [pair_pos_fc1 pos_emb_dim] in *. now rewrite EP. }
      destruct (add_position_errors _ _ _ _ _ _ _ Hfc Epe); tauto. }
  destruct (match adj with
            | Some a => mask_and_bias w1 a lb
            | None => Ok w1
            end) as [w2|e2] eqn:Eadj; cbn [bind] in Hr.
  2:{ injection Hr as <-.
      destruct adj as [a|]; [|discriminate].
      destruct (mask_and_bias_errors _ _ _ _ Eadj) as [He | [He | [He Hlb]]];
        [tauto | tauto |].
      right. right. repeat split; [exact He | discriminate | exact Hlb]. }
  destruct (aggregate L _ _ _ _ w2) as [mx|e3] eqn:Eagg; cbn [bind] in Hr.
  - discriminate.
  - injection Hr as <-. destruct (aggregate_errors _ _ _ _ _ _ _ Eagg); tauto.
Qed.

Lemma forward_error_kinds_witness :
  AttributeError = IndexError \/ AttributeError = RuntimeError \/
  (AttributeError = AttributeError /\ Some adj_half <> None /\ @None Tensor = None).
Proof.
  apply (forward_error_kinds 1 2 (-1) 1 theta_unit (unit_layer 2 (-1)) two_regions
           (Some adj_half) None None AttributeError (unit_layer_init 2 (-1))).
  - lia.
  - apply (forward_missing_biases 1 2 (-1) 1 theta_unit (unit_layer 2 (-1)) 1 2
             two_regions adj_half None bias_zero (unit_layer_init 2 (-1))
             (unit_valid adj_half bias_zero eq_refl eq_refl)).
Defined.
